(** * LSLIM user refinement: [lslim_participation_learn.c]

    A shallow embedding of [lslim_learn_pu_all] and [lslim_learn_pu], the
    routines that recompute, for every user, the cluster with the smallest
    training error, and assemble the per-process results with MPI
    collectives. *)

From stdpp Require Import base option list.
From Stdlib Require Import ZArith Lia SpecFloat.

Local Open Scope Z_scope.

(** ** C [int]: 32-bit two's complement, wrap-around written out *)

Module CInt.

Definition INT_MIN : Z := - 2 ^ 31.
Definition INT_MAX : Z := 2 ^ 31 - 1.

Definition is_int (z : Z) : Prop := INT_MIN <= z <= INT_MAX.

Definition wrap (z : Z) : Z := (z + 2 ^ 31) mod 2 ^ 32 - 2 ^ 31.

Definition int_add (a b : Z) : Z := wrap (a + b).
Definition int_sub (a b : Z) : Z := wrap (a - b).
Definition int_mul (a b : Z) : Z := wrap (a * b).
(** C division truncates towards zero: [Z.quot] and [Z.rem].  Division by
    zero is undefined in C; every statement below has [1 <= num_procs]. *)
Definition int_div (a b : Z) : Z := wrap (Z.quot a b).
Definition int_rem (a b : Z) : Z := wrap (Z.rem a b).

End CInt.
Import CInt.

(** ** Work partition (lines 44-54 of [lslim_learn_pu_all]) *)

(** Modelled from the spec: [gk_min] is a GKlib macro that is not part of
    this file; the spec reads it as the minimum, [min(w, remainder)]. *)
Definition gk_min (a b : Z) : Z := if a >=? b then b else a.

(** The three locals every process derives from [train->nrows],
    [ctrl->num_procs] and [ctrl->id]. *)
Record range_t := Range { step : Z; startu : Z; endu : Z }.

(** Lines 45-49: the balanced block formula. *)
Definition balanced_range (datasize num_procs id : Z) : range_t :=
  let step :=
    int_add (int_div datasize num_procs)
            (if id <? int_rem datasize num_procs then 1 else 0) in
  let startu :=
    int_add (int_mul (int_div datasize num_procs) id)
            (gk_min id (int_rem datasize num_procs)) in
  let endu := int_add startu step in
  Range step startu endu.

(** Line 51: the guard of the clamp. *)
Definition clamp_guard (datasize num_procs id : Z) (r : range_t) : bool :=
  (endu r <? datasize) && (id =? int_sub num_procs 1).

(** Lines 51-54: the clamp on the last process. *)
Definition clamp (datasize num_procs id : Z) (r : range_t) : range_t :=
  if clamp_guard datasize num_procs id r
  then Range (int_sub datasize (startu r)) (startu r) datasize
  else r.

(** Lines 44-54 together. *)
Definition block_range (datasize num_procs id : Z) : range_t :=
  clamp datasize num_procs id (balanced_range datasize num_procs id).

(** Process [w] owns user [u]. *)
Definition owns (datasize num_procs w u : Z) : Prop :=
  startu (block_range datasize num_procs w) <= u
  < endu (block_range datasize num_procs w).

(** The block lengths of ranks [0 .. num_procs - 1], in rank order. *)
Definition block_sizes (datasize num_procs : Z) : list Z :=
  map (fun w => step (block_range datasize num_procs w)) (seqZ 0 num_procs).

Definition max_list (l : list Z) : Z := foldr Z.max (hd 0 l) l.
Definition min_list (l : list Z) : Z := foldr Z.min (hd 0 l) l.

(** ** Arrays and loops *)

(** C array indexing with an [int] index: a read or write outside the
    array has no defined result. *)
Definition array_get {A} (a : list A) (i : Z) : option A :=
  if i <? 0 then None else a !! Z.to_nat i.

Definition array_set {A} (a : list A) (i : Z) (x : A) : option (list A) :=
  if (0 <=? i) && (i <? Z.of_nat (length a))
  then Some (<[Z.to_nat i := x]> a) else None.

(** [for (i = lo; i < hi; i++) body], threading the loop state and stopping
    at the first failing iteration.  The counter stays below [hi], itself an
    [int], so its increment never wraps. *)
Fixpoint for_loop {St} (n : nat) (i : Z) (body : Z -> St -> option St)
    (s : St) : option St :=
  match n with
  | O => Some s
  | S n' => s' ← body i s; for_loop n' (i + 1) body s'
  end.

Definition for_range {St} (lo hi : Z) (body : Z -> St -> option St)
    (s : St) : option St :=
  for_loop (Z.to_nat (hi - lo)) lo body s.

(** ** Process memory *)

(** A cell of an [int] array is [None] until it is first written; a block
    is [None] once freed.  Addresses are positions in the heap, and an
    allocation always takes the next unused one. *)
Abbreviation cell := (option Z).
Abbreviation block := (list cell).
Abbreviation heap := (list (option block)).
Abbreviation addr := nat.
(** Pointers; [None] is [NULL]. *)
Abbreviation ptr := (option addr).

Definition block_at (p : ptr) (h : heap) : option block :=
  a ← p; mb ← h !! a; mb.

(** [gk_imalloc(n, msg)]: [n] uninitialised ints. *)
Definition gk_imalloc (n : Z) (h : heap) : option (ptr * heap) :=
  if n <? 0 then None
  else Some (Some (length h), h ++ [Some (replicate (Z.to_nat n) None)]).

(** [gk_ismalloc(n, v, msg)]: [n] ints, all set to [v]. *)
Definition gk_ismalloc (n v : Z) (h : heap) : option (ptr * heap) :=
  if n <? 0 then None
  else Some (Some (length h), h ++ [Some (replicate (Z.to_nat n) (Some v))]).

(** [p[i]] as an rvalue. *)
Definition load (p : ptr) (i : Z) (h : heap) : option Z :=
  b ← block_at p h; c ← array_get b i; c.

(** [p[i] = v]. *)
Definition store (p : ptr) (i v : Z) (h : heap) : option heap :=
  a ← p; b ← block_at p h; b' ← array_set b i (Some v);
  Some (<[a := Some b']> h).

(** The first [n] cells of [p], as a message buffer. *)
Definition load_block (p : ptr) (n : Z) (h : heap) : option block :=
  b ← block_at p h;
  if (0 <=? n) && (n <=? Z.of_nat (length b))
  then Some (take (Z.to_nat n) b) else None.

(** Overwrite [p[off .. off + length data)] with [data]. *)
Definition store_block (p : ptr) (off : Z) (data : block) (h : heap)
  : option heap :=
  a ← p; b ← block_at p h;
  if (0 <=? off) && (off + Z.of_nat (length data) <=? Z.of_nat (length b))
  then Some (<[a := Some (take (Z.to_nat off) b ++ data ++
                          drop (Z.to_nat off + length data) b)]> h)
  else None.

(** [gk_free]: releases a live block; [NULL] is skipped. *)
Definition gk_free (p : ptr) (h : heap) : option heap :=
  match p with
  | None => Some h
  | Some a => _ ← block_at p h; Some (<[a := None]> h)
  end.

(** ** One round of user refinement *)

Section Round.

(** Modelled from the spec: [lslim_training_error(ctrl, model, train, u,
    cluster_id)] is defined outside this file.  The spec makes it a pure,
    deterministic function of the user and the cluster for a fixed round
    (fixed control structure, model and training matrix), so it is taken
    here as a function of [u] and [cluster_id]. *)
Variable lslim_training_error : Z -> Z -> spec_float.

(** [ctrl->num_clusters], the same on every process. *)
Variable num_clusters : Z.

(** *** [lslim_learn_pu] (lines 136-181) *)

(** Lines 145-151: the local [error] array, zero-filled by [gk_dsmalloc]
    and then written cluster by cluster. *)
Definition fill_error (u : Z) : option (list spec_float) :=
  for_range 0 num_clusters
    (fun cluster_id error =>
       array_set error cluster_id (lslim_training_error u cluster_id))
    (replicate (Z.to_nat num_clusters) (S754_zero false)).

(** Lines 158-163: the scan for the smallest error; the loop state is
    [(new_assignment, min_error)]. *)
Definition min_scan (error : list spec_float) (init : Z * spec_float)
  : option (Z * spec_float) :=
  for_range 0 num_clusters
    (fun cluster_id '(new_assignment, min_error) =>
       e ← array_get error cluster_id;
       Some (if SFltb e min_error then (cluster_id, e)
             else (new_assignment, min_error)))
    init.

(** Lines 168-174: the scan for a tie with the incumbent; the loop state
    is [*indiff]. *)
Definition tie_scan (error : list spec_float) (participation : Z)
    (min_error : spec_float) (indiff : Z) : option Z :=
  for_range 0 num_clusters
    (fun cluster_id indiff =>
       e ← array_get error cluster_id;
       Some (if negb (cluster_id =? participation) && SFeqb e min_error
             then 1 else indiff))
    indiff.

(** The result is the pair of the returned assignment and the value left
    in [*indiff]. *)
Definition lslim_learn_pu (u participation : Z) : option (Z * Z) :=
  error ← fill_error u;
  min_error ← array_get error participation;
  '(new_assignment, min_error) ← min_scan error (participation, min_error);
  indiff ← (if new_assignment =? participation
            then tie_scan error participation min_error 0
            else Some 0);
  Some (new_assignment, indiff).

(** *** [lslim_learn_pu_all] (lines 30-114) *)

(** The locals of one process, with its memory. *)
Record frame := Frame {
  mem : heap;
  range : range_t;
  partial_participation : ptr;
  partial_indiff : ptr;
  sizes : ptr;
  displays : ptr;
  total_participation : ptr;
  total_indiff : ptr }.

Definition set_mem (h : heap) (f : frame) : frame :=
  Frame h (range f) (partial_participation f) (partial_indiff f)
        (sizes f) (displays f) (total_participation f) (total_indiff f).

(** The processes of [MPI_COMM_WORLD] in rank order: [ctrl->id] is the
    position in the list and [ctrl->num_procs] its length.  [spmd f w]
    runs the same code [f id] on every process. *)
Fixpoint spmd_from {A B} (id : Z) (f : Z -> A -> option B) (w : list A)
  : option (list B) :=
  match w with
  | [] => Some []
  | a :: w' => b ← f id a; bs ← spmd_from (id + 1) f w'; Some (b :: bs)
  end.

Definition spmd {A B} (f : Z -> A -> option B) (w : list A)
  : option (list B) := spmd_from 0 f w.

(** Lines 65-69: the body of the loop over the users of this process; the
    loop state is the local [indiff] and the memory. *)
Definition learn_user (participation : ptr) (startu : Z)
    (partial_participation partial_indiff : ptr) (u : Z) (s : Z * heap)
  : option (Z * heap) :=
  let '(_, h) := s in
  p_u ← load participation u h;
  '(assignment, indiff) ← lslim_learn_pu u p_u;
  h ← store partial_participation (int_sub u startu) assignment h;
  h ← store partial_indiff (int_sub u startu) indiff h;
  Some (indiff, h).

(** Lines 44-69.  The widening of [model->ncols] and the column index
    (lines 56-58) only touch the model matrix, which the error function
    above abstracts. *)
Definition local_pass (datasize num_procs : Z) (id : Z)
    (input : ptr * heap) : option frame :=
  let '(participation, h) := input in
  let r := block_range datasize num_procs id in
  '(partial_participation, h) ← gk_imalloc (step r) h;
  '(partial_indiff, h) ← gk_imalloc (step r) h;
  '(_, h) ← for_range (startu r) (endu r)
              (learn_user participation (startu r)
                          partial_participation partial_indiff)
              (0, h);
  Some (Frame h r partial_participation partial_indiff None None None None).

(** Lines 75-78. *)
Definition alloc_root (num_procs : Z) (id : Z) (f : frame) : option frame :=
  if id =? 0 then
    '(sizes, h) ← gk_ismalloc num_procs 0 (mem f);
    '(displays, h) ← gk_ismalloc num_procs 0 h;
    Some (Frame h (range f) (partial_participation f) (partial_indiff f)
                sizes displays (total_participation f) (total_indiff f))
  else Some f.

(** Lines 82-88. *)
Definition make_displays (num_procs : Z) (id : Z) (f : frame)
  : option frame :=
  if id =? 0 then
    h ← store (displays f) 0 0 (mem f);
    h ← for_range 0 num_procs
          (fun i h =>
             if negb (i =? int_sub num_procs 1) then
               d ← load (displays f) i h;
               s ← load (sizes f) i h;
               store (displays f) (int_add i 1) (int_add d s) h
             else Some h)
          h;
    Some (set_mem h f)
  else Some f.

(** Lines 90-91. *)
Definition alloc_total (datasize : Z) (id : Z) (f : frame) : option frame :=
  '(total_participation, h) ← gk_imalloc datasize (mem f);
  '(total_indiff, h) ← gk_imalloc datasize h;
  Some (Frame h (range f) (partial_participation f) (partial_indiff f)
              (sizes f) (displays f) total_participation total_indiff).

(** Lines 106-113: the frees, [*indifference = total_indiff] and the
    returned [total_participation]. *)
Definition finish (id : Z) (f : frame) : option (ptr * ptr * heap) :=
  h ← gk_free (partial_participation f) (mem f);
  h ← gk_free (partial_indiff f) h;
  h ← (if id =? 0
       then h ← gk_free (sizes f) h; gk_free (displays f) h
       else Some h);
  Some (total_participation f, total_indiff f, h).

(** *** The MPI collectives, all rooted at rank 0 *)

(** Modelled from the spec: the collectives are MPI library calls.  Per
    the collaborator contract they are reliable and ordered by rank:
    gather-to-one places the contribution of rank [i] at position [i],
    the variable-length gather places [recvcounts[i]] cells of rank [i]
    at offset [displs[i]] of the root's buffer, and broadcast-from-one
    copies the root's buffer to everyone.  Receive-side arguments are
    read at the root only.  [MPI_Barrier] (line 71) is the sequencing of
    the stages below: every process has left one stage before any enters
    the next. *)

(** [MPI_Gather(&x, 1, MPI_INT, recvbuf, 1, MPI_INT, 0, comm)]. *)
Definition MPI_Gather (send : frame -> Z) (recvbuf : frame -> ptr)
    (w : list frame) : option (list frame) :=
  match w with
  | [] => None
  | root :: others =>
      h ← store_block (recvbuf root) 0 ((fun f => Some (send f)) <$> w)
                      (mem root);
      Some (set_mem h root :: others)
  end.

(** The root's side of [MPI_Gatherv]: the message of rank [i] must carry
    [recvcounts[i]] cells and lands at [recvbuf + displs[i]]. *)
Fixpoint gatherv_recv (recvbuf recvcounts displs : ptr) (i : Z)
    (msgs : list block) (h : heap) : option heap :=
  match msgs with
  | [] => Some h
  | data :: rest =>
      n ← load recvcounts i h;
      d ← load displs i h;
      if n =? Z.of_nat (length data) then
        h ← store_block recvbuf d data h;
        gatherv_recv recvbuf recvcounts displs (i + 1) rest h
      else None
  end.

(** [MPI_Gatherv(sendbuf, sendcount, MPI_INT, recvbuf, recvcounts, displs,
    MPI_INT, 0, comm)]. *)
Definition MPI_Gatherv (sendbuf : frame -> ptr) (sendcount : frame -> Z)
    (recvbuf recvcounts displs : frame -> ptr) (w : list frame)
  : option (list frame) :=
  match w with
  | [] => None
  | root :: others =>
      msgs ← mapM (fun f => load_block (sendbuf f) (sendcount f) (mem f)) w;
      h ← gatherv_recv (recvbuf root) (recvcounts root) (displs root) 0
                       msgs (mem root);
      Some (set_mem h root :: others)
  end.

(** [MPI_Bcast(buffer, count, MPI_INT, 0, comm)]. *)
Definition MPI_Bcast (buffer : frame -> ptr) (count : Z) (w : list frame)
  : option (list frame) :=
  match w with
  | [] => None
  | root :: others =>
      data ← load_block (buffer root) count (mem root);
      others' ← mapM (fun f => h ← store_block (buffer f) 0 data (mem f);
                               Some (set_mem h f)) others;
      Some (root :: others')
  end.

(** Lines 71-113: everything after the local pass. *)
Definition synchronize (datasize : Z) (w : list frame)
  : option (list (ptr * ptr * heap)) :=
  let num_procs := Z.of_nat (length w) in
  w ← spmd (alloc_root num_procs) w;
  w ← MPI_Gather (fun f => step (range f)) sizes w;
  w ← spmd (make_displays num_procs) w;
  w ← spmd (alloc_total datasize) w;
  w ← MPI_Gatherv partial_participation (fun f => step (range f))
                  total_participation sizes displays w;
  w ← MPI_Gatherv partial_indiff (fun f => step (range f))
                  total_indiff sizes displays w;
  w ← MPI_Bcast total_participation datasize w;
  w ← MPI_Bcast total_indiff datasize w;
  spmd finish w.

(** The whole round.  [datasize] is [train->nrows]; every process comes
    with its [participation] pointer and its memory, and leaves with the
    returned pointer, [*indifference] and its memory. *)
Definition lslim_learn_pu_all (datasize : Z) (world : list (ptr * heap))
  : option (list (ptr * ptr * heap)) :=
  let num_procs := Z.of_nat (length world) in
  w ← spmd (local_pass datasize num_procs) world;
  synchronize datasize w.

(** One user of the sequential run: [lslim_learn_pu(ctrl, train, u, model,
    participation[u], &indiff)]. *)
Definition learn_one (participation : list Z) (u : Z) : option (Z * Z) :=
  p_u ← array_get participation u; lslim_learn_pu u p_u.

(** The round as the spec describes its result: every user in index order
    through [lslim_learn_pu], no processes involved. *)
Definition sequential_round (datasize : Z) (participation : list Z)
  : option (list (Z * Z)) :=
  mapM (learn_one participation) (seqZ 0 datasize).

End Round.

(** ** Vocabulary of the statements *)

(** An array all of whose cells have been written. *)
Definition filled (l : list Z) : block := Some <$> l.

Definition sumZ (l : list Z) : Z := foldr Z.add 0 l.

(** The offset of rank [k]: the sum of the sizes of ranks [0 .. k-1]. *)
Definition offset (sizes : list Z) (k : nat) : Z := sumZ (take k sizes).

(** The users of rank [id], in index order. *)
Definition users_of (datasize num_procs id : Z) : list Z :=
  seqZ (startu (block_range datasize num_procs id))
       (step (block_range datasize num_procs id)).

(** The frame a process is in after lines 44-69, when its users came out
    as [vs]. *)
Definition passed (r : range_t) (h : heap) (vs : list (Z * Z)) : frame :=
  Frame (h ++ [Some (filled (fst <$> vs)); Some (filled (snd <$> vs))]) r
        (Some (length h)) (Some (length h + 1)%nat) None None None None.

(** The world after the local pass, ranks [id, id + 1, ...], when the
    users of each rank came out as the corresponding entry of [vss]. *)
Fixpoint passed_world (datasize num_procs id : Z) (world : list (ptr * heap))
    (vss : list (list (Z * Z))) : list frame :=
  match world, vss with
  | (_, h) :: world', vs :: vss' =>
      passed (block_range datasize num_procs id) h vs
      :: passed_world datasize num_procs (id + 1) world' vss'
  | _, _ => []
  end.

(** The input of a process: its [participation] points to a live array
    holding [P]. *)
Definition holds (P : list Z) (input : ptr * heap) : Prop :=
  block_at (fst input) (snd input) = Some (filled P).

(** The buffer [sel f] of frame [f] is live, holds [A], and has the length
    the frame announces in [step]. *)
Definition slice (sel : frame -> ptr) (f : frame) (A : block) : Prop :=
  block_at (sel f) (mem f) = Some A /\
  Z.of_nat (length A) = step (range f).

(** [gk_free] as a function on a memory where the block is live. *)
Definition release (q : ptr) (h : heap) : heap :=
  match q with Some a => <[a := None]> h | None => h end.

(** What a process returns when the assembled vectors are [TP] and [TI]:
    the two partial buffers are freed, the root's [sizes] and [displays]
    have come and gone, and the two new arrays sit at the end. *)
Definition synchronized (TP TI : block) (is_root : bool) (f : frame)
  : ptr * ptr * heap :=
  let extra : heap := if is_root then [None; None] else [] in
  let base := (length (mem f) + length extra)%nat in
  (Some base, Some (base + 1)%nat,
   release (partial_indiff f) (release (partial_participation f) (mem f))
   ++ extra ++ [Some TP; Some TI]).

Definition synchronized_world (TP TI : block) (w : list frame)
  : list (ptr * ptr * heap) :=
  match w with
  | [] => []
  | root :: others =>
      synchronized TP TI true root :: (synchronized TP TI false <$> others)
  end.

(** The [displays] array after [k] iterations of the loop of lines 84-87:
    offsets up to index [min k (n - 1)], zeros beyond. *)
Definition displays_at (sizes : list Z) (k : nat) : block :=
  (fun i : nat =>
     Some (if (i <=? Nat.min k (length sizes - 1))%nat
           then offset sizes i else 0))
  <$> seq 0 (length sizes).

(** Frames between the stages of [synchronize]: the memory grown by the
    blocks [l]; at the root [sizes] and [displays] are the first two. *)
Definition root_frame (f : frame) (l : heap) (tp ti : ptr) : frame :=
  Frame (mem f ++ l) (range f) (partial_participation f) (partial_indiff f)
        (Some (length (mem f))) (Some (length (mem f) + 1)%nat) tp ti.

Definition other_frame (f : frame) (l : heap) (tp ti : ptr) : frame :=
  Frame (mem f ++ l) (range f) (partial_participation f) (partial_indiff f)
        (sizes f) (displays f) tp ti.

(** What a process holds when the round returns [TP] and [TI]: its old
    memory, the two freed partial buffers, at the root the freed [sizes]
    and [displays], and the two new arrays, to which the returned pointers
    point. *)
Definition returned (TP TI : block) (is_root : bool) (input : ptr * heap)
  : ptr * ptr * heap :=
  let h := snd input in
  let extra : heap := if is_root then [None; None] else [] in
  (Some (length h + 2 + length extra)%nat,
   Some (length h + 2 + length extra + 1)%nat,
   h ++ [None; None] ++ extra ++ [Some TP; Some TI]).

Definition returned_world (TP TI : block) (world : list (ptr * heap))
  : list (ptr * ptr * heap) :=
  match world with
  | [] => []
  | root :: others =>
      returned TP TI true root :: (returned TP TI false <$> others)
  end.

(** The two vectors a process gets back: the array behind the returned
    pointer and the one behind [*indifference]. *)
Definition vectors (out : ptr * ptr * heap) : option (block * block) :=
  let '(tp, ti, h) := out in
  TP ← block_at tp h; TI ← block_at ti h; Some (TP, TI).

(** ** The scenario of the specification *)

(** Four users, two clusters; errors [[1.0, 2.0]; [2.0, 1.0]; [1.0, 1.0];
    [3.0, 3.0]] and current assignment [0; 0; 1; 0]. *)
Module Scenario.

Definition d1 : spec_float := S754_finite false 4503599627370496 (-52).
Definition d2 : spec_float := S754_finite false 4503599627370496 (-51).
Definition d3 : spec_float := S754_finite false 6755399441055744 (-51).

Definition errs (u cluster_id : Z) : spec_float :=
  default S754_nan
    (row ← array_get [[d1; d2]; [d2; d1]; [d1; d1]; [d3; d3]] u;
     array_get row cluster_id).

Definition assignment : block := [Some 0; Some 0; Some 1; Some 0].

(** A process whose memory holds the assignment at address 0. *)
Definition process : ptr * heap := (Some 0%nat, [Some assignment]).

(** Two processes after a local pass over three users: rank 0 owns two
    of them, rank 1 the third. *)
Definition slices_participation : list block := [[Some 5; Some 6]; [Some 7]].
Definition slices_indiff : list block := [[Some 0; Some 1]; [Some 1]].

Definition after_pass : list frame :=
  [Frame [Some [Some 5; Some 6]; Some [Some 0; Some 1]] (Range 2 0 2)
         (Some 0%nat) (Some 1%nat) None None None None;
   Frame [Some [Some 7]; Some [Some 1]] (Range 1 2 3)
         (Some 0%nat) (Some 1%nat) None None None None].

End Scenario.

(** ** Around the round *)

(** Lines 56-57: the declared column count of the model after the
    widening; [size] is [ctrl->size] and [ncols] is [model->ncols]. *)
Definition widen_ncols (size num_clusters ncols : Z) : Z :=
  if int_mul size num_clusters >? ncols
  then int_mul size num_clusters else ncols.

(** The caller's next round: the returned vector becomes the
    [participation] argument, in the memory the call left behind. *)
Definition next_input (out : ptr * ptr * heap) : ptr * heap :=
  (fst (fst out), snd out).

(** * Proofs *)

(** ** The model on the scenario *)

Example partition_of_seven :
  block_range 7 3 <$> [0; 1; 2] = [Range 3 0 3; Range 2 3 5; Range 2 5 7].
Proof. reflexivity. Qed.

Example scenario_users :
  sequential_round Scenario.errs 2 4 [0; 0; 1; 0]
  = Some [(0, 0); (1, 0); (1, 1); (0, 1)].
Proof. reflexivity. Qed.

Example scenario_round :
  (fun outs : list (ptr * ptr * heap) => vectors <$> outs)
  <$> lslim_learn_pu_all Scenario.errs 2 4 [Scenario.process; Scenario.process]
  = Some (replicate 2 (Some (filled [0; 1; 1; 0], filled [0; 0; 1; 1]))).
Proof. reflexivity. Qed.

Example scenario_bad_assignment :
  lslim_learn_pu Scenario.errs 2 0 2 = None.
Proof. reflexivity. Qed.

(** ** Machine integers *)

Lemma wrap_small z : is_int z -> wrap z = z.
Proof.
  unfold is_int, INT_MIN, INT_MAX, wrap. intros Hz.
  rewrite Z.mod_small by lia. lia.
Qed.

(** ** The work partition *)

Section Partition.

Variables datasize num_procs : Z.
Hypothesis Hdata : 0 <= datasize <= INT_MAX.
Hypothesis Hprocs : 1 <= num_procs <= INT_MAX.

Let base := datasize / num_procs.
Let remainder := datasize mod num_procs.

Local Lemma division : datasize = num_procs * base + remainder
  /\ 0 <= remainder < num_procs /\ 0 <= base <= datasize.
Proof.
  subst base remainder.
  pose proof (Z.div_mod datasize num_procs ltac:(lia)).
  pose proof (Z.mod_pos_bound datasize num_procs ltac:(lia)).
  pose proof (Z.div_pos datasize num_procs ltac:(lia) ltac:(lia)).
  split; [assumption|]. split; [assumption|]. split; [assumption|]. nia.
Qed.

Lemma int_div_rem :
  int_div datasize num_procs = base /\ int_rem datasize num_procs = remainder.
Proof.
  destruct division as (_ & Hr & Hb). unfold int_div, int_rem.
  rewrite Z.quot_div_nonneg, Z.rem_mod_nonneg by lia.
  fold base remainder. unfold INT_MAX in *.
  split; apply wrap_small; unfold is_int, INT_MIN, INT_MAX; lia.
Qed.

(** The balanced formula never leaves the [int] range, so it can be read
    over the integers. *)
Lemma balanced_range_eq id :
  0 <= id < num_procs ->
  balanced_range datasize num_procs id =
    Range (base + (if id <? remainder then 1 else 0))
          (base * id + Z.min id remainder)
          (base * (id + 1) + Z.min (id + 1) remainder).
Proof.
  intros Hid. destruct division as (Hd & Hr & Hb).
  unfold balanced_range. destruct int_div_rem as [-> ->].
  assert (0 <= base * id <= base * (num_procs - 1)) by nia.
  assert (Hmin : gk_min id remainder = Z.min id remainder).
  { unfold gk_min. destruct (Z.geb_spec id remainder); lia. }
  rewrite Hmin. unfold int_add, int_mul, INT_MAX in *.
  assert (Hw : forall z, 0 <= z <= datasize -> wrap z = z).
  { intros z Hz. apply wrap_small. unfold is_int, INT_MIN, INT_MAX. lia. }
  rewrite (Hw (base * id)) by nia.
  rewrite (Hw (base + _)) by (destruct (Z.ltb_spec id remainder); nia).
  rewrite (Hw (base * id + _)) by nia.
  rewrite Hw by (destruct (Z.ltb_spec id remainder); nia).
  f_equal. destruct (Z.ltb_spec id remainder); lia.
Qed.

Lemma last_end_is_datasize :
  endu (balanced_range datasize num_procs (num_procs - 1)) = datasize.
Proof.
  destruct division as (Hd & Hr & Hb).
  rewrite balanced_range_eq by lia. simpl. lia.
Qed.

Lemma clamp_guard_false id :
  0 <= id < num_procs ->
  clamp_guard datasize num_procs id (balanced_range datasize num_procs id)
  = false.
Proof.
  intros Hid. unfold clamp_guard.
  assert (Hlast : int_sub num_procs 1 = num_procs - 1).
  { apply wrap_small. unfold is_int, INT_MIN, INT_MAX in *. lia. }
  rewrite Hlast. destruct (Z.eqb_spec id (num_procs - 1)) as [->|];
    [|apply andb_false_r].
  rewrite last_end_is_datasize, Z.ltb_irrefl. reflexivity.
Qed.

Lemma block_range_eq id :
  0 <= id < num_procs ->
  block_range datasize num_procs id =
    Range (base + (if id <? remainder then 1 else 0))
          (base * id + Z.min id remainder)
          (base * (id + 1) + Z.min (id + 1) remainder).
Proof.
  intros Hid. unfold block_range, clamp.
  rewrite clamp_guard_false by assumption. apply balanced_range_eq, Hid.
Qed.

Lemma block_range_bounds id :
  0 <= id < num_procs ->
  let r := block_range datasize num_procs id in
  0 <= step r /\ 0 <= startu r /\ endu r = startu r + step r
  /\ endu r <= datasize.
Proof.
  intros Hid r. subst r. rewrite block_range_eq by assumption. simpl.
  destruct division as (Hd & Hr & Hb).
  destruct (Z.ltb_spec id remainder); repeat split; nia.
Qed.

Lemma block_range_next id :
  0 <= id -> id + 1 < num_procs ->
  startu (block_range datasize num_procs (id + 1))
  = endu (block_range datasize num_procs id).
Proof. intros. rewrite !block_range_eq by lia. reflexivity. Qed.

Lemma block_range_first : startu (block_range datasize num_procs 0) = 0.
Proof. destruct division as (_ & ? & ?). rewrite block_range_eq by lia. simpl. lia. Qed.

Lemma block_range_last :
  endu (block_range datasize num_procs (num_procs - 1)) = datasize.
Proof.
  destruct division as (? & ? & ?). rewrite block_range_eq by lia. simpl. lia.
Qed.

(** Blocks of lower ranks lie entirely below blocks of higher ranks. *)
Lemma block_range_mono w w' :
  0 <= w -> w < w' -> w' < num_procs ->
  endu (block_range datasize num_procs w)
  <= startu (block_range datasize num_procs w').
Proof.
  intros. rewrite !block_range_eq by lia. simpl.
  destruct division as (? & ? & ?). nia.
Qed.

Lemma owner_exists u :
  0 <= u < datasize -> exists w, 0 <= w < num_procs /\ owns datasize num_procs w u.
Proof.
  intros Hu.
  assert (Hind : forall n : nat, (Z.of_nat n < num_procs) ->
    u < endu (block_range datasize num_procs (Z.of_nat n)) ->
    exists w, 0 <= w < num_procs /\ owns datasize num_procs w u).
  { induction n as [|n IH]; intros Hn Hlt.
    - exists 0. split; [lia|]. unfold owns.
      change (Z.of_nat 0) with 0 in Hlt. rewrite block_range_first. lia.
    - destruct (Z_lt_le_dec u (startu (block_range datasize num_procs (Z.of_nat (S n)))))
        as [Hbelow|Hin].
      + apply IH; [lia|].
        rewrite Nat2Z.inj_succ in Hbelow. unfold Z.succ in Hbelow.
        rewrite block_range_next in Hbelow by lia. exact Hbelow.
      + exists (Z.of_nat (S n)). split; [lia|]. unfold owns. lia. }
  apply (Hind (Z.to_nat (num_procs - 1))); rewrite Z2Nat.id by lia; [lia|].
  rewrite block_range_last. lia.
Qed.

Lemma owner_unique u w w' :
  0 <= w < num_procs -> 0 <= w' < num_procs ->
  owns datasize num_procs w u -> owns datasize num_procs w' u -> w = w'.
Proof.
  unfold owns. intros Hw Hw' Ho Ho'.
  destruct (Z.lt_trichotomy w w') as [Hlt|[Heq|Hgt]]; [|assumption|].
  - pose proof (block_range_mono w w' ltac:(lia) Hlt ltac:(lia)). lia.
  - pose proof (block_range_mono w' w ltac:(lia) Hgt ltac:(lia)). lia.
Qed.

End Partition.

(** The partition is used through these lemmas from here on. *)
Arguments block_range : simpl never.
Arguments balanced_range : simpl never.
Arguments wrap : simpl never.

(** C3: for [numUsers >= 0] and [numWorkers >= 1] (both C ints) the ranges
    of lines 44-54 tile [0, numUsers): every user has exactly one owner, no
    range leaves [0, numUsers), consecutive ranges meet, [start(w) =
    base * w + min(w, remainder)], the first [remainder] ranks hold
    [base + 1] users and the others [base]; 7 users on 3 processes give
    sizes [3; 2; 2] and starts [0; 3; 5]. *)
Theorem partition_tiles (datasize num_procs : Z) :
  0 <= datasize <= INT_MAX ->
  1 <= num_procs <= INT_MAX ->
  let base := Z.quot datasize num_procs in
  let remainder := Z.rem datasize num_procs in
  let r := block_range datasize num_procs in
  (forall u, 0 <= u < datasize ->
     exists w, (0 <= w < num_procs /\ owns datasize num_procs w u) /\
       forall w', 0 <= w' < num_procs -> owns datasize num_procs w' u ->
                  w' = w) /\
  (forall w u, 0 <= w < num_procs -> owns datasize num_procs w u ->
     0 <= u < datasize) /\
  (forall w, 0 <= w < num_procs ->
     startu (r w) = base * w + Z.min w remainder /\
     step (r w) = (if w <? remainder then base + 1 else base) /\
     endu (r w) = startu (r w) + step (r w)) /\
  startu (r 0) = 0 /\
  (forall w, 0 <= w -> w + 1 < num_procs -> startu (r (w + 1)) = endu (r w)) /\
  endu (r (num_procs - 1)) = datasize /\
  (map (fun w => step (block_range 7 3 w)) [0; 1; 2] = [3; 2; 2] /\
   map (fun w => startu (block_range 7 3 w)) [0; 1; 2] = [0; 3; 5]).
Proof.
  intros Hd Hp base remainder r. subst base remainder r.
  rewrite Z.quot_div_nonneg, Z.rem_mod_nonneg by lia.
  split; [|split; [|split; [|split; [|split; [|split]]]]].
  - intros u Hu. destruct (owner_exists _ _ Hd Hp u Hu) as (w & Hw & Ho).
    exists w. split; [auto|]. intros w' Hw' Ho'.
    exact (owner_unique _ _ Hd Hp u w' w Hw' Hw Ho' Ho).
  - unfold owns. intros w u Hw Ho.
    pose proof (block_range_bounds _ _ Hd Hp w Hw) as (? & ? & ? & ?). lia.
  - intros w Hw. rewrite (block_range_eq _ _ Hd Hp w Hw). simpl.
    destruct (Z.ltb_spec w (datasize mod num_procs)); repeat split; lia.
  - exact (block_range_first _ _ Hd Hp).
  - intros w ? ?. apply (block_range_next _ _ Hd Hp); assumption.
  - exact (block_range_last _ _ Hd Hp).
  - split; reflexivity.
Qed.

Lemma partition_tiles_witness :
  exists w, (0 <= w < 3 /\ owns 7 3 w 4) /\
    forall w', 0 <= w' < 3 -> owns 7 3 w' 4 -> w' = w.
Proof.
  refine (proj1 (partition_tiles 7 3 _ _) 4 _); unfold INT_MAX; lia.
Defined.

(** C7: the balanced formula already ends the last rank at [numUsers], so
    the guard of line 51 is false on every rank and the clamp leaves
    [step], [startu] and [endu] as they were. *)
Theorem clamp_is_dead (datasize num_procs : Z) :
  0 <= datasize <= INT_MAX ->
  1 <= num_procs <= INT_MAX ->
  endu (balanced_range datasize num_procs (num_procs - 1)) = datasize /\
  forall id,
    clamp_guard datasize num_procs id (balanced_range datasize num_procs id)
    = false /\
    block_range datasize num_procs id = balanced_range datasize num_procs id.
Proof.
  intros Hd Hp. split; [exact (last_end_is_datasize _ _ Hd Hp)|].
  intros id.
  assert (Hg : clamp_guard datasize num_procs id
                 (balanced_range datasize num_procs id) = false).
  { destruct (Z.eq_dec id (num_procs - 1)) as [->|Hne].
    - apply (clamp_guard_false _ _ Hd Hp). lia.
    - unfold clamp_guard.
      replace (int_sub num_procs 1) with (num_procs - 1)
        by (symmetry; apply wrap_small; unfold is_int, INT_MIN, INT_MAX in *; lia).
      destruct (Z.eqb_spec id (num_procs - 1)); [contradiction|].
      apply andb_false_r. }
  split; [exact Hg|]. unfold block_range, clamp. rewrite Hg. reflexivity.
Qed.

Lemma clamp_is_dead_witness :
  endu (balanced_range 10 4 (4 - 1)) = 10 /\
  forall id, clamp_guard 10 4 id (balanced_range 10 4 id) = false /\
             block_range 10 4 id = balanced_range 10 4 id.
Proof. apply (clamp_is_dead 10 4); unfold INT_MAX; lia. Defined.

Lemma foldr_max_bounds (a b init : Z) (l : list Z) :
  Forall (fun x => a <= x <= b) l -> a <= init <= b ->
  a <= foldr Z.min init l /\ foldr Z.max init l <= b.
Proof. induction 1; simpl; lia. Qed.

(** C8: the block lengths of the ranks differ by at most one. *)
Theorem partition_balanced (datasize num_procs : Z) :
  0 <= datasize <= INT_MAX ->
  1 <= num_procs <= INT_MAX ->
  max_list (block_sizes datasize num_procs)
  - min_list (block_sizes datasize num_procs) <= 1.
Proof.
  intros Hd Hp. set (base := datasize / num_procs).
  assert (Hall : Forall (fun x => base <= x <= base + 1)
                        (block_sizes datasize num_procs)).
  { unfold block_sizes. rewrite Forall_map. apply Forall_forall.
    intros w Hw. apply elem_of_seqZ in Hw.
    rewrite (block_range_eq _ _ Hd Hp) by lia. simpl. fold base.
    destruct (w <? datasize mod num_procs); lia. }
  assert (Hlen : length (block_sizes datasize num_procs) = Z.to_nat num_procs).
  { unfold block_sizes. rewrite length_map. apply length_seqZ. }
  unfold max_list, min_list.
  destruct Hall as [|x l Hx Hl]; [simpl in Hlen; lia|].
  pose proof (foldr_max_bounds _ _ x (x :: l) (Forall_cons_2 _ _ _ Hx Hl) Hx).
  simpl in *. lia.
Qed.

Lemma partition_balanced_witness :
  max_list (block_sizes 7 3) - min_list (block_sizes 7 3) <= 1.
Proof. apply (partition_balanced 7 3); unfold INT_MAX; lia. Defined.

(** ** Comparison of doubles *)

(** [<] and [==] on doubles are [SFltb] and [SFeqb]; both are false as
    soon as one side is a NaN, and the two zeros are [==].  The facts the
    scans rely on hold for all doubles. *)

Ltac sf_compare :=
  repeat match goal with
  | H : context [Z.compare ?x ?y] |- _ => destruct (Z.compare_spec x y)
  | |- context [Z.compare ?x ?y] => destruct (Z.compare_spec x y)
  | H : context [Pos.compare_cont Eq ?x ?y] |- _ =>
      change (Pos.compare_cont Eq x y) with (Pos.compare x y) in H;
      destruct (Pos.compare_spec x y)
  | |- context [Pos.compare_cont Eq ?x ?y] =>
      change (Pos.compare_cont Eq x y) with (Pos.compare x y);
      destruct (Pos.compare_spec x y)
  end.

Ltac sf_solve :=
  unfold SFltb, SFeqb, SFcompare;
  repeat match goal with
  | x : spec_float |- _ => destruct x
  | s : bool |- _ => destruct s
  end;
  simpl; try congruence;
  intros; sf_compare; simpl in *; try congruence; try lia.

Lemma SFltb_irrefl a : SFltb a a = false.
Proof. sf_solve. Qed.

Lemma SFltb_trans a b c :
  SFltb a b = true -> SFltb b c = true -> SFltb a c = true.
Proof. sf_solve. Qed.

Lemma SFeqb_ltb a b c :
  SFeqb a b = true -> SFltb b c = true -> SFltb a c = true.
Proof. sf_solve. Qed.

Lemma SFltb_not_eqb a b : SFltb a b = true -> SFeqb b a = false.
Proof. sf_solve. Qed.

(** Away from NaN the order is total: "nothing strictly below" is "below
    or equal to everything". *)
Lemma SFleb_of_not_ltb a b :
  a <> S754_nan -> b <> S754_nan -> SFltb a b = false -> SFleb b a = true.
Proof. unfold SFleb. sf_solve. Qed.

Lemma SFltb_asym a b : SFltb a b = true -> SFltb b a = false.
Proof.
  intros Hab. destruct (SFltb b a) eqn:Hba; [|reflexivity].
  pose proof (SFltb_trans _ _ _ Hab Hba) as Haa.
  rewrite SFltb_irrefl in Haa. discriminate.
Qed.

(** ** Loops and arrays *)

(** The invariant rule: a loop whose body keeps [P] and never fails runs
    to completion and ends in [P]. *)
Lemma for_loop_inv {St} (P : Z -> St -> Prop) (body : Z -> St -> option St)
    (n : nat) (i : Z) (s : St) :
  P i s ->
  (forall k t, i <= k < i + Z.of_nat n -> P k t ->
     exists t', body k t = Some t' /\ P (k + 1) t') ->
  exists s', for_loop n i body s = Some s' /\ P (i + Z.of_nat n) s'.
Proof.
  revert i s. induction n as [|n IH]; intros i s Hs Hbody.
  - exists s. split; [reflexivity|]. rewrite Z.add_0_r. exact Hs.
  - destruct (Hbody i s ltac:(lia) Hs) as (t & Ht & HP).
    destruct (IH (i + 1) t HP) as (s' & Hs' & HP').
    { intros k t' Hk. apply Hbody. lia. }
    exists s'. split; [simpl; rewrite Ht; exact Hs'|].
    replace (i + Z.of_nat (S n)) with (i + 1 + Z.of_nat n) by lia. exact HP'.
Qed.

Lemma for_range_inv {St} (P : Z -> St -> Prop) (body : Z -> St -> option St)
    (lo hi : Z) (s : St) :
  lo <= hi -> P lo s ->
  (forall k t, lo <= k < hi -> P k t ->
     exists t', body k t = Some t' /\ P (k + 1) t') ->
  exists s', for_range lo hi body s = Some s' /\ P hi s'.
Proof.
  intros Hle Hs Hbody. unfold for_range.
  destruct (for_loop_inv P body (Z.to_nat (hi - lo)) lo s Hs) as (s' & ? & HP).
  { intros k t Hk. apply Hbody. lia. }
  exists s'. split; [assumption|].
  replace (lo + Z.of_nat (Z.to_nat (hi - lo))) with hi in HP by lia. exact HP.
Qed.

(** Brings the invariant rule for the loop in the goal, with invariant
    [P], into the context as [Hloop]. *)
Ltac loop_invariant P :=
  match goal with
  | |- context [for_range ?lo ?hi ?body ?s] =>
      pose proof (for_range_inv P body lo hi s) as Hloop
  end.

Lemma for_range_empty {St} (body : Z -> St -> option St) (lo hi : Z) (s : St) :
  hi <= lo -> for_range lo hi body s = Some s.
Proof.
  intros Hle. unfold for_range.
  replace (Z.to_nat (hi - lo)) with 0%nat by lia. reflexivity.
Qed.

Lemma array_get_lookup {A} (a : list A) (i : Z) :
  0 <= i -> array_get a i = a !! Z.to_nat i.
Proof. intros Hi. unfold array_get. destruct (Z.ltb_spec i 0); [lia|reflexivity]. Qed.

Lemma array_get_tabulate {A} (f : Z -> A) (n i : Z) :
  array_get (f <$> seqZ 0 n) i
  = if (0 <=? i) && (i <? n) then Some (f i) else None.
Proof.
  unfold array_get.
  destruct (Z.ltb_spec i 0), (Z.leb_spec 0 i); try lia; [reflexivity|].
  rewrite list_lookup_fmap. destruct (Z.ltb_spec i n); simpl.
  - rewrite lookup_seqZ_lt by lia. simpl. f_equal. f_equal. lia.
  - rewrite lookup_seqZ_ge by lia. reflexivity.
Qed.

Lemma array_set_Some {A} (a : list A) (i : Z) (x : A) :
  0 <= i < Z.of_nat (length a) ->
  array_set a i x = Some (<[Z.to_nat i := x]> a).
Proof.
  intros Hi. unfold array_set.
  destruct (Z.leb_spec 0 i), (Z.ltb_spec i (Z.of_nat (length a)));
    try lia; reflexivity.
Qed.

(** ** The per-user optimizer *)

Section Optimizer.

Variable lslim_training_error : Z -> Z -> spec_float.
Variable num_clusters : Z.
Variable u : Z.

Local Abbreviation err := (lslim_training_error u).
Local Abbreviation errors := (lslim_training_error u <$> seqZ 0 num_clusters).

(** After lines 145-151 the array holds the error of every cluster. *)
Lemma fill_error_eq :
  fill_error lslim_training_error num_clusters u = Some errors.
Proof.
  unfold fill_error.
  destruct (Z_le_gt_dec num_clusters 0) as [Hn|Hn].
  { rewrite for_range_empty by lia.
    replace (Z.to_nat num_clusters) with 0%nat by lia.
    unfold seqZ. replace (Z.to_nat num_clusters) with 0%nat by lia. reflexivity. }
  loop_invariant
    (fun k (error : list spec_float) =>
       length error = Z.to_nat num_clusters /\
       forall j, 0 <= j < k -> error !! Z.to_nat j = Some (err j)).
  destruct Hloop as (error & -> & Hlen & Hall); [| | |f_equal].
  - lia.
  - split; [apply length_replicate|]. intros; lia.
  - intros k t Hk [Hlen Hall]. rewrite array_set_Some by lia.
    eexists; split; [reflexivity|]. split; [rewrite length_insert; exact Hlen|].
    intros j Hj. destruct (Z.eq_dec j k) as [->|Hne].
    + apply list_lookup_insert_eq. lia.
    + rewrite list_lookup_insert_ne by lia. apply Hall. lia.
  - apply list_eq. intros i. destruct (decide (i < Z.to_nat num_clusters)%nat).
    + rewrite <- (Nat2Z.id i), (Hall (Z.of_nat i)) by lia.
      rewrite list_lookup_fmap, lookup_seqZ_lt by lia. simpl. f_equal. f_equal. lia.
    + rewrite !lookup_ge_None_2; [reflexivity| |lia].
      rewrite length_fmap, length_seqZ. lia.
Qed.

Lemma errors_get (k : Z) :
  0 <= k < num_clusters -> array_get errors k = Some (err k).
Proof.
  intros Hk. rewrite array_get_tabulate.
  destruct (Z.leb_spec 0 k), (Z.ltb_spec k num_clusters); try lia. reflexivity.
Qed.

(** Lines 158-163 started from the incumbent [c]: the scan ends on a
    cluster no other cluster is strictly below; it leaves [c] only for a
    strictly smaller error, and then for the first cluster with that
    error. *)
Lemma min_scan_spec (c : Z) :
  0 <= c < num_clusters ->
  exists r,
    min_scan num_clusters errors (c, err c) = Some (r, err r) /\
    0 <= r < num_clusters /\
    (forall j, 0 <= j < num_clusters -> SFltb (err j) (err r) = false) /\
    (r = c \/
     (r <> c /\ SFltb (err r) (err c) = true /\
      forall j, 0 <= j < r -> SFeqb (err j) (err r) = false)).
Proof.
  intros Hc. unfold min_scan.
  loop_invariant
    (fun k (s : Z * spec_float) =>
       snd s = err (fst s) /\
       (forall j, 0 <= j < k -> SFltb (err j) (snd s) = false) /\
       (fst s = c \/
        (0 <= fst s < k /\ fst s <> c /\ SFltb (snd s) (err c) = true /\
         forall j, 0 <= j < fst s -> SFeqb (err j) (snd s) = false))).
  destruct Hloop as ([r m] & -> & Hm & Hlow & Hmoved).
  - lia.
  - simpl. split; [reflexivity|]. split; [intros; lia|]. left; reflexivity.
  - intros k [new m] Hk (Hm & Hlow & Hmoved). simpl in *. subst m.
    rewrite errors_get by lia. simpl.
    destruct (SFltb (err k) (err new)) eqn:Hlt; eexists; (split; [reflexivity|]);
      simpl.
    + assert (Hbelow : forall j, 0 <= j < k -> SFltb (err j) (err k) = false).
      { intros j Hj. destruct (SFltb (err j) (err k)) eqn:Hjk; [|reflexivity].
        rewrite <- (Hlow j Hj). symmetry. eapply SFltb_trans; eassumption. }
      split; [reflexivity|]. split.
      { intros j Hj. destruct (Z.eq_dec j k) as [->|];
          [apply SFltb_irrefl|apply Hbelow; lia]. }
      right. split; [lia|].
      assert (Hkc : SFltb (err k) (err c) = true).
      { destruct Hmoved as [->|(_ & _ & Hnc & _)]; [exact Hlt|].
        eapply SFltb_trans; eassumption. }
      split; [intros ->; rewrite SFltb_irrefl in Hkc; discriminate|].
      split; [exact Hkc|].
      intros j Hj. destruct (SFeqb (err j) (err k)) eqn:Heq; [|reflexivity].
      rewrite <- (Hlow j Hj). symmetry. eapply SFeqb_ltb; eassumption.
    + split; [reflexivity|]. split.
      { intros j Hj. destruct (Z.eq_dec j k) as [->|];
          [exact Hlt|apply Hlow; lia]. }
      destruct Hmoved as [->|(? & ? & ? & ?)]; [left; reflexivity|].
      right. repeat split; auto; lia.
  - simpl in *. subst m. exists r. split; [reflexivity|].
    split; [destruct Hmoved as [->|]; lia|]. split; [exact Hlow|].
    destruct Hmoved as [->|(? & ? & ? & ?)]; [left; reflexivity|right; auto].
Qed.

(** Lines 168-174: the flag ends at 1 exactly when a cluster other than
    the incumbent has an error [==] to [m]. *)
Lemma tie_scan_spec (c : Z) (m : spec_float) :
  exists indiff,
    tie_scan num_clusters errors c m 0 = Some indiff /\
    ((indiff = 1 /\
      exists d, 0 <= d < num_clusters /\ d <> c /\ SFeqb (err d) m = true) \/
     (indiff = 0 /\
      forall d, 0 <= d < num_clusters -> d <> c -> SFeqb (err d) m = false)).
Proof.
  unfold tie_scan.
  destruct (Z_le_gt_dec num_clusters 0) as [Hn|Hn].
  { rewrite for_range_empty by lia. exists 0. split; [reflexivity|].
    right. split; [reflexivity|]. intros; lia. }
  loop_invariant
    (fun k (indiff : Z) =>
       (indiff = 1 /\
        exists d, 0 <= d < k /\ d <> c /\ SFeqb (err d) m = true) \/
       (indiff = 0 /\
        forall d, 0 <= d < k -> d <> c -> SFeqb (err d) m = false)).
  destruct Hloop as (indiff & -> & Hinv).
  - lia.
  - right. split; [reflexivity|]. intros; lia.
  - intros k t Hk Hinv. rewrite errors_get by lia. simpl.
    eexists; split; [reflexivity|].
    destruct (Z.eqb_spec k c) as [->|Hkc]; simpl.
    + destruct Hinv as [(-> & d & ? & ? & ?)|(-> & Hnone)].
      * left. split; [reflexivity|]. exists d. repeat split; auto; lia.
      * right. split; [reflexivity|]. intros d Hd Hdc. apply Hnone; lia.
    + destruct (SFeqb (err k) m) eqn:Heq.
      * left. split; [reflexivity|]. exists k. repeat split; auto; lia.
      * destruct Hinv as [(-> & d & ? & ? & ?)|(-> & Hnone)].
        -- left. split; [reflexivity|]. exists d. repeat split; auto; lia.
        -- right. split; [reflexivity|]. intros d Hd Hdc.
           destruct (Z.eq_dec d k) as [->|]; [exact Heq|apply Hnone; lia].
  - exists indiff. split; [reflexivity|exact Hinv].
Qed.

(** [lslim_learn_pu] on a valid incumbent [c]: it returns, with the flag
    it leaves in [*indiff], in one of three ways. *)
Lemma lslim_learn_pu_spec (c : Z) :
  0 <= c < num_clusters ->
  exists r indiff,
    lslim_learn_pu lslim_training_error num_clusters u c = Some (r, indiff) /\
    0 <= r < num_clusters /\
    (forall j, 0 <= j < num_clusters -> SFltb (err j) (err r) = false) /\
    ((r = c /\ indiff = 1 /\
      exists d, 0 <= d < num_clusters /\ d <> c /\
                SFeqb (err d) (err c) = true) \/
     (r = c /\ indiff = 0 /\
      forall d, 0 <= d < num_clusters -> d <> c ->
                SFeqb (err d) (err c) = false) \/
     (r <> c /\ indiff = 0 /\ SFltb (err r) (err c) = true /\
      forall j, 0 <= j < r -> SFeqb (err j) (err r) = false)).
Proof.
  intros Hc. unfold lslim_learn_pu. rewrite fill_error_eq. simpl.
  rewrite errors_get by assumption. simpl.
  destruct (min_scan_spec c Hc) as (r & -> & Hr & Hlow & Hcase). simpl.
  destruct Hcase as [->|(Hne & Hlt & Hfirst)].
  - rewrite Z.eqb_refl.
    destruct (tie_scan_spec c (err c)) as (indiff & -> & Htie). simpl.
    exists c, indiff. split; [reflexivity|]. split; [exact Hr|].
    split; [exact Hlow|].
    destruct Htie as [[-> ?]|[-> ?]]; [left|right; left]; auto.
  - destruct (Z.eqb_spec r c); [contradiction|]. simpl.
    exists r, 0. split; [reflexivity|]. split; [exact Hr|].
    split; [exact Hlow|]. right; right. auto.
Qed.

End Optimizer.

(** C1: if some cluster is strictly below the incumbent [c], the call
    returns a cluster [r] with no cluster strictly below it, strictly below
    [c], with no lower id holding the same error, and leaves 0 in
    [*indiff]. *)
Theorem optimizer_improvement (lslim_training_error : Z -> Z -> spec_float)
    (num_clusters u c : Z) :
  0 <= c < num_clusters ->
  (exists d, 0 <= d < num_clusters /\
     SFltb (lslim_training_error u d) (lslim_training_error u c) = true) ->
  exists r,
    lslim_learn_pu lslim_training_error num_clusters u c = Some (r, 0) /\
    0 <= r < num_clusters /\
    SFltb (lslim_training_error u r) (lslim_training_error u c) = true /\
    (forall j, 0 <= j < num_clusters ->
       SFltb (lslim_training_error u j) (lslim_training_error u r) = false) /\
    (forall j, 0 <= j < r ->
       SFeqb (lslim_training_error u j) (lslim_training_error u r) = false).
Proof.
  intros Hc (d & Hd & Hlt).
  destruct (lslim_learn_pu_spec lslim_training_error num_clusters u c Hc)
    as (r & indiff & Hrun & Hr & Hlow & Hcase).
  destruct Hcase as [(-> & _)|[(-> & _)|(_ & -> & Hrc & Hfirst)]].
  - rewrite (Hlow d Hd) in Hlt. discriminate.
  - rewrite (Hlow d Hd) in Hlt. discriminate.
  - exists r. auto.
Qed.

Lemma optimizer_improvement_witness :
  exists r, lslim_learn_pu Scenario.errs 2 1 0 = Some (r, 0) /\
    0 <= r < 2 /\
    SFltb (Scenario.errs 1 r) (Scenario.errs 1 0) = true /\
    (forall j, 0 <= j < 2 ->
       SFltb (Scenario.errs 1 j) (Scenario.errs 1 r) = false) /\
    (forall j, 0 <= j < r ->
       SFeqb (Scenario.errs 1 j) (Scenario.errs 1 r) = false).
Proof.
  apply (optimizer_improvement Scenario.errs 2 1 0); [lia|].
  exists 1. split; [lia|reflexivity].
Defined.

(** C2: if no cluster is strictly below the incumbent [c], the call
    returns [c]; it leaves 1 in [*indiff] when some other cluster has an
    error [==] to that of [c], and 0 when none has. *)
Theorem optimizer_tie (lslim_training_error : Z -> Z -> spec_float)
    (num_clusters u c : Z) :
  0 <= c < num_clusters ->
  (forall k, 0 <= k < num_clusters ->
     SFltb (lslim_training_error u k) (lslim_training_error u c) = false) ->
  ((exists d, 0 <= d < num_clusters /\ d <> c /\
      SFeqb (lslim_training_error u d) (lslim_training_error u c) = true) ->
   lslim_learn_pu lslim_training_error num_clusters u c = Some (c, 1)) /\
  ((forall d, 0 <= d < num_clusters -> d <> c ->
      SFeqb (lslim_training_error u d) (lslim_training_error u c) = false) ->
   lslim_learn_pu lslim_training_error num_clusters u c = Some (c, 0)).
Proof.
  intros Hc Hnone.
  destruct (lslim_learn_pu_spec lslim_training_error num_clusters u c Hc)
    as (r & indiff & Hrun & Hr & Hlow & Hcase).
  destruct Hcase as [(-> & -> & d & Hd & Hdc & Heq)
                    |[(-> & -> & Hnotie)|(_ & _ & Hrc & _)]].
  - split; [intros _; exact Hrun|].
    intros Hno. rewrite (Hno d Hd Hdc) in Heq. discriminate.
  - split; [|intros _; exact Hrun].
    intros (d & Hd & Hdc & Heq). rewrite (Hnotie d Hd Hdc) in Heq. discriminate.
  - rewrite (Hnone r Hr) in Hrc. discriminate.
Qed.

Lemma optimizer_tie_witness :
  lslim_learn_pu Scenario.errs 2 2 1 = Some (1, 1).
Proof.
  refine (proj1 (optimizer_tie Scenario.errs 2 2 1 _ _) _).
  - lia.
  - intros k Hk. assert (k = 0 \/ k = 1) as [-> | ->] by lia; reflexivity.
  - exists 0. split; [lia|]. split; [lia|reflexivity].
Defined.

(** C6: if the incumbent [c] is strictly below every other cluster, the
    call returns [c] and leaves 0 in [*indiff]. *)
Theorem optimizer_incumbency (lslim_training_error : Z -> Z -> spec_float)
    (num_clusters u c : Z) :
  0 <= c < num_clusters ->
  (forall k, 0 <= k < num_clusters -> k <> c ->
     SFltb (lslim_training_error u c) (lslim_training_error u k) = true) ->
  lslim_learn_pu lslim_training_error num_clusters u c = Some (c, 0).
Proof.
  intros Hc Hmin.
  destruct (lslim_learn_pu_spec lslim_training_error num_clusters u c Hc)
    as (r & indiff & Hrun & Hr & Hlow & Hcase).
  destruct Hcase as [(-> & -> & d & Hd & Hdc & Heq)
                    |[(-> & -> & Hnotie)|(Hne & _ & Hrc & _)]].
  - rewrite (SFltb_not_eqb _ _ (Hmin d Hd Hdc)) in Heq. discriminate.
  - exact Hrun.
  - rewrite (SFltb_asym _ _ (Hmin r Hr Hne)) in Hrc. discriminate.
Qed.

Lemma optimizer_incumbency_witness :
  lslim_learn_pu Scenario.errs 2 0 0 = Some (0, 0).
Proof.
  apply (optimizer_incumbency Scenario.errs 2 0 0); [lia|].
  intros k Hk Hne. assert (k = 1) as -> by lia. reflexivity.
Defined.

(** C10: with [0 <= participation < num_clusters] (so [num_clusters >= 1])
    every access to [error] is inside the array and the call returns;
    otherwise the read [error[participation]] of line 155 is outside the
    array. *)
Theorem error_index_in_bounds (lslim_training_error : Z -> Z -> spec_float)
    (num_clusters u participation : Z) :
  (0 <= participation < num_clusters ->
   1 <= num_clusters /\
   is_Some (lslim_learn_pu lslim_training_error num_clusters u participation))
  /\
  (~ 0 <= participation < num_clusters ->
   exists error,
     fill_error lslim_training_error num_clusters u = Some error /\
     Z.of_nat (length error) = Z.max 0 num_clusters /\
     array_get error participation = None /\
     lslim_learn_pu lslim_training_error num_clusters u participation = None).
Proof.
  split.
  - intros Hc. split; [lia|].
    destruct (lslim_learn_pu_spec lslim_training_error num_clusters u
                participation Hc) as (r & indiff & -> & _).
    eexists; reflexivity.
  - intros Hc. eexists. split; [apply fill_error_eq|].
    split; [rewrite length_fmap, length_seqZ; lia|].
    assert (Hget : array_get (lslim_training_error u <$> seqZ 0 num_clusters)
                             participation = None).
    { rewrite array_get_tabulate.
      destruct (Z.leb_spec 0 participation),
               (Z.ltb_spec participation num_clusters); try lia; reflexivity. }
    split; [exact Hget|].
    unfold lslim_learn_pu. rewrite fill_error_eq. simpl. rewrite Hget. reflexivity.
Qed.

Lemma error_index_in_bounds_witness :
  is_Some (lslim_learn_pu Scenario.errs 2 3 1) /\
  lslim_learn_pu Scenario.errs 2 3 2 = None.
Proof.
  destruct (error_index_in_bounds Scenario.errs 2 3 1) as [Hin _].
  destruct (error_index_in_bounds Scenario.errs 2 3 2) as [_ Hout].
  split.
  - apply Hin. lia.
  - destruct Hout as (error & _ & _ & _ & Hnone); [lia|exact Hnone].
Defined.

(** ** Memory operations *)

Section Heap.

Implicit Types (h : heap) (a : addr) (b : block).

Lemma lookup_beyond {A} (l1 l2 : list A) (k : nat) :
  (l1 ++ l2) !! (length l1 + k)%nat = l2 !! k.
Proof. rewrite lookup_app_r by lia. f_equal. lia. Qed.

Lemma block_at_Some a h b : h !! a = Some (Some b) -> block_at (Some a) h = Some b.
Proof. intros H. unfold block_at. simpl. rewrite H. reflexivity. Qed.

Lemma gk_imalloc_Some n h :
  0 <= n ->
  gk_imalloc n h = Some (Some (length h), h ++ [Some (replicate (Z.to_nat n) None)]).
Proof. intros Hn. unfold gk_imalloc. destruct (Z.ltb_spec n 0); [lia|reflexivity]. Qed.

Lemma gk_ismalloc_Some n v h :
  0 <= n ->
  gk_ismalloc n v h
  = Some (Some (length h), h ++ [Some (replicate (Z.to_nat n) (Some v))]).
Proof. intros Hn. unfold gk_ismalloc. destruct (Z.ltb_spec n 0); [lia|reflexivity]. Qed.

Lemma load_Some a h b i v :
  h !! a = Some (Some b) -> 0 <= i -> b !! Z.to_nat i = Some (Some v) ->
  load (Some a) i h = Some v.
Proof.
  intros Hb Hi Hv. unfold load. rewrite (block_at_Some _ _ _ Hb). simpl.
  rewrite array_get_lookup, Hv by assumption. reflexivity.
Qed.

Lemma load_filled a h (l : list Z) i :
  h !! a = Some (Some (filled l)) -> load (Some a) i h = array_get l i.
Proof.
  intros Hb. unfold load. rewrite (block_at_Some _ _ _ Hb). simpl.
  unfold array_get, filled. destruct (i <? 0); [reflexivity|].
  rewrite list_lookup_fmap. destruct (l !! Z.to_nat i); reflexivity.
Qed.

Lemma store_Some a h b i v :
  h !! a = Some (Some b) -> 0 <= i < Z.of_nat (length b) ->
  store (Some a) i v h = Some (<[a := Some (<[Z.to_nat i := Some v]> b)]> h).
Proof.
  intros Hb Hi. unfold store. rewrite (block_at_Some _ _ _ Hb). simpl.
  rewrite array_set_Some by assumption. reflexivity.
Qed.

Lemma load_block_all a h b n :
  h !! a = Some (Some b) -> n = Z.of_nat (length b) ->
  load_block (Some a) n h = Some b.
Proof.
  intros Hb ->. unfold load_block. rewrite (block_at_Some _ _ _ Hb). simpl.
  destruct (Z.leb_spec 0 (Z.of_nat (length b))); [|lia].
  rewrite Z.leb_refl. simpl. rewrite Nat2Z.id, take_ge by lia. reflexivity.
Qed.

Lemma store_block_Some a h b off data :
  h !! a = Some (Some b) -> 0 <= off ->
  off + Z.of_nat (length data) <= Z.of_nat (length b) ->
  store_block (Some a) off data h
  = Some (<[a := Some (take (Z.to_nat off) b ++ data ++
                       drop (Z.to_nat off + length data) b)]> h).
Proof.
  intros Hb Hoff Hfit. unfold store_block.
  rewrite (block_at_Some _ _ _ Hb). simpl.
  destruct (Z.leb_spec 0 off); [|lia].
  destruct (Z.leb_spec (off + Z.of_nat (length data)) (Z.of_nat (length b)));
    [|lia]. reflexivity.
Qed.

Lemma gk_free_Some a h b :
  h !! a = Some (Some b) -> gk_free (Some a) h = Some (<[a := None]> h).
Proof. intros Hb. unfold gk_free. rewrite (block_at_Some _ _ _ Hb). reflexivity. Qed.

(** The same on a block allocated after [h], found at position [k] of
    the extension [l]. *)
Lemma lookup_new a h (l : heap) (k : nat) :
  a = (length h + k)%nat -> (h ++ l) !! a = l !! k.
Proof. intros ->. apply lookup_beyond. Qed.

Lemma insert_new a h (l : heap) (k : nat) (x : option block) :
  a = (length h + k)%nat -> <[a := x]> (h ++ l) = h ++ <[k := x]> l.
Proof. intros ->. apply insert_app_r. Qed.

Lemma load_new a h (l : heap) (k : nat) b i v :
  a = (length h + k)%nat -> l !! k = Some (Some b) -> 0 <= i ->
  b !! Z.to_nat i = Some (Some v) ->
  load (Some a) i (h ++ l) = Some v.
Proof.
  intros Ha Hb. apply load_Some. rewrite (lookup_new _ _ _ k); assumption.
Qed.

Lemma store_new a h (l : heap) (k : nat) b i v :
  a = (length h + k)%nat -> l !! k = Some (Some b) ->
  0 <= i < Z.of_nat (length b) ->
  store (Some a) i v (h ++ l)
  = Some (h ++ <[k := Some (<[Z.to_nat i := Some v]> b)]> l).
Proof.
  intros Ha Hb Hi. rewrite (store_Some a _ b) by
    (assumption || rewrite (lookup_new _ _ _ k); assumption).
  subst a. rewrite insert_app_r. reflexivity.
Qed.

Lemma store_block_new a h (l : heap) (k : nat) b off data :
  a = (length h + k)%nat -> l !! k = Some (Some b) -> 0 <= off ->
  off + Z.of_nat (length data) <= Z.of_nat (length b) ->
  store_block (Some a) off data (h ++ l)
  = Some (h ++ <[k := Some (take (Z.to_nat off) b ++ data ++
                            drop (Z.to_nat off + length data) b)]> l).
Proof.
  intros Ha Hb Hoff Hfit. rewrite (store_block_Some a _ b) by
    (assumption || rewrite (lookup_new _ _ _ k); assumption).
  subst a. rewrite insert_app_r. reflexivity.
Qed.

Lemma load_block_new a h (l : heap) (k : nat) b n :
  a = (length h + k)%nat -> l !! k = Some (Some b) ->
  n = Z.of_nat (length b) ->
  load_block (Some a) n (h ++ l) = Some b.
Proof.
  intros Ha Hb. apply load_block_all. rewrite (lookup_new _ _ _ k); assumption.
Qed.

Lemma store_block_new_all a h (l : heap) (k : nat) b data :
  a = (length h + k)%nat -> l !! k = Some (Some b) ->
  length data = length b ->
  store_block (Some a) 0 data (h ++ l) = Some (h ++ <[k := Some data]> l).
Proof.
  intros Ha Hb Hlen. rewrite (store_block_new a h l k b) by (assumption || lia).
  simpl. rewrite drop_ge, app_nil_r by lia. reflexivity.
Qed.

Lemma gk_free_new a h (l : heap) (k : nat) b :
  a = (length h + k)%nat -> l !! k = Some (Some b) ->
  gk_free (Some a) (h ++ l) = Some (h ++ <[k := None]> l).
Proof.
  intros Ha Hb. rewrite (gk_free_Some a _ b)
    by (rewrite (lookup_new _ _ _ k); assumption).
  subst a. rewrite insert_app_r. reflexivity.
Qed.

End Heap.

Ltac solve_length :=
  unfold filled in *;
  repeat (rewrite length_app || rewrite length_replicate
          || rewrite length_fmap || rewrite length_cons
          || rewrite length_insert || rewrite length_seqZ
          || rewrite length_take || rewrite length_drop
          || rewrite length_nil);
  simpl; lia.

(** From here on the memory operations are only used through the lemmas
    above. *)
Arguments block_at : simpl never.
Arguments load : simpl never.
Arguments store : simpl never.
Arguments load_block : simpl never.
Arguments store_block : simpl never.
Arguments gk_imalloc : simpl never.
Arguments gk_ismalloc : simpl never.
Arguments gk_free : simpl never.
Arguments lslim_learn_pu : simpl never.

(** ** The local pass (lines 44-69) *)

Section LocalPass.

Variable lslim_training_error : Z -> Z -> spec_float.
Variable num_clusters : Z.

Variables (h : heap) (p : addr) (P : list Z).
Hypothesis Hinput : h !! p = Some (Some (filled P)).

Local Abbreviation one := (learn_one lslim_training_error num_clusters).
Local Abbreviation body := (learn_user lslim_training_error num_clusters).

Lemma filled_snoc (l : list Z) (x : Z) (n : nat) :
  <[length l := Some x]> (filled l ++ None :: replicate n None)
  = filled (l ++ [x]) ++ replicate n None.
Proof.
  unfold filled. rewrite fmap_app, <- app_assoc. simpl.
  replace (length l) with (length (Some <$> l) + 0)%nat
    by (rewrite length_fmap; lia).
  rewrite insert_app_r. reflexivity.
Qed.

(** The loop of lines 65-69, entered with the results [done] of the users
    already treated: it fails exactly when one of the remaining users
    does, and otherwise leaves their results behind those of [done]. *)
Lemma user_loop (first : Z) (total : nat) (n : nat) :
  0 <= first -> first + Z.of_nat total <= INT_MAX ->
  forall (done : list (Z * Z)) (indiff : Z),
    (length done + n = total)%nat ->
    snd <$> for_loop n (first + Z.of_nat (length done))
              (body (Some p) first (Some (length h))
                    (Some (length h + 1)%nat))
              (indiff,
               h ++ [Some (filled (fst <$> done) ++ replicate n None);
                     Some (filled (snd <$> done) ++ replicate n None)])
    = (vs ← mapM (one P) (seqZ (first + Z.of_nat (length done))
                                     (Z.of_nat n));
       Some (h ++ [Some (filled (fst <$> (done ++ vs)));
                   Some (filled (snd <$> (done ++ vs)))])).
Proof.
  intros Hfirst Hmax. induction n as [|n IH]; intros done indiff Hlen.
  - simpl. rewrite !app_nil_r. reflexivity.
  - rewrite seqZ_cons by lia. simpl.
    assert (Hp : (p < length h)%nat) by (eapply lookup_lt_Some; eassumption).
    rewrite (load_filled p _ P) by (rewrite lookup_app_l; assumption).
    assert (Hone : one P (first + Z.of_nat (length done))
              = (p_u ← array_get P (first + Z.of_nat (length done));
                 lslim_learn_pu lslim_training_error num_clusters
                                (first + Z.of_nat (length done)) p_u))
      by reflexivity.
    rewrite Hone. clear Hone.
    destruct (array_get P (first + Z.of_nat (length done))) as [p_u|];
      [simpl|reflexivity].
    destruct (lslim_learn_pu _ _ _ p_u) as [[assignment indiff']|];
      [simpl|reflexivity].
    assert (Hsub : int_sub (first + Z.of_nat (length done)) first
                   = Z.of_nat (length done)).
    { unfold int_sub. rewrite wrap_small; [lia|].
      unfold is_int, INT_MIN, INT_MAX in *. lia. }
    rewrite Hsub.
    erewrite (store_new _ h _ 0); [|lia|reflexivity|solve_length].
    simpl.
    erewrite (store_new _ h _ 1); [|lia|reflexivity|solve_length].
    simpl. rewrite Nat2Z.id.
    pose proof (filled_snoc (fst <$> done) assignment n) as Ha.
    pose proof (filled_snoc (snd <$> done) indiff' n) as Hi.
    rewrite !length_fmap in Ha, Hi. rewrite Ha, Hi.
    change [assignment] with (fst <$> [(assignment, indiff')]).
    change [indiff'] with (snd <$> [(assignment, indiff')]).
    rewrite <- !fmap_app.
    specialize (IH (done ++ [(assignment, indiff')]) indiff').
    rewrite length_app in IH. simpl in IH.
    replace (first + Z.of_nat (length done + 1))
      with (first + Z.of_nat (length done) + 1) in IH by lia.
    replace (Z.pred (Z.of_nat (S n))) with (Z.of_nat n) by lia.
    replace (Z.succ (first + Z.of_nat (length done)))
      with (first + Z.of_nat (length done) + 1) by lia.
    rewrite IH by lia.
    destruct (mapM _ _) as [vs|]; [simpl|reflexivity].
    rewrite <- !app_assoc. reflexivity.
Qed.

Lemma local_pass_spec (datasize num_procs id : Z) :
  0 <= datasize <= INT_MAX -> 1 <= num_procs <= INT_MAX ->
  0 <= id < num_procs ->
  local_pass lslim_training_error num_clusters datasize num_procs id
             (Some p, h)
  = (vs ← mapM (one P) (users_of datasize num_procs id);
     Some (passed (block_range datasize num_procs id) h vs)).
Proof.
  intros Hd Hn Hid. unfold local_pass, users_of, passed.
  destruct (block_range_bounds _ _ Hd Hn id Hid) as (Hstep & Hstart & Hend & Hle).
  cbv zeta in Hstep, Hstart, Hend, Hle.
  generalize dependent (block_range datasize num_procs id). intros r **.
  rewrite gk_imalloc_Some by assumption. simpl.
  rewrite gk_imalloc_Some by assumption. simpl.
  rewrite length_app, <- app_assoc. simpl.
  pose proof (user_loop (startu r) (Z.to_nat (step r)) (Z.to_nat (step r))
                Hstart ltac:(lia) [] 0 eq_refl) as Hloop.
  simpl in Hloop. rewrite Z.add_0_r, Z2Nat.id in Hloop by assumption.
  unfold for_range. replace (endu r - startu r) with (step r) by lia.
  destruct (for_loop _ _ _ _) as [[indiff h']|];
    destruct (mapM _ _) as [vs|]; simpl in *; congruence.
Qed.

End LocalPass.

(** ** Running the same code on every process *)

Lemma spmd_from_uniform {A B} (g : A -> B) (f : Z -> A -> option B)
    (k : Z) (w : list A) :
  (forall id a, k <= id -> f id a = Some (g a)) ->
  spmd_from k f w = Some (g <$> w).
Proof.
  revert k. induction w as [|a w IH]; intros k Hf; [reflexivity|].
  simpl. rewrite Hf by lia. simpl. rewrite IH by (intros; apply Hf; lia).
  reflexivity.
Qed.

Lemma spmd_from_Forall {A B} (g : A -> B) (Q : A -> Prop)
    (f : Z -> A -> option B) (k : Z) (w : list A) :
  (forall id a, k <= id -> Q a -> f id a = Some (g a)) ->
  Forall Q w ->
  spmd_from k f w = Some (g <$> w).
Proof.
  intros Hf Hw. revert k Hf. induction Hw as [|a w Ha Hw IH]; intros k Hf;
    [reflexivity|].
  simpl. rewrite Hf by (assumption || lia). simpl.
  rewrite IH by (intros; apply Hf; assumption || lia). reflexivity.
Qed.

Lemma spmd_from_fmap {A B C} (g : A -> B) (f : Z -> B -> option C)
    (k : Z) (w : list A) :
  spmd_from k f (g <$> w) = spmd_from k (fun id a => f id (g a)) w.
Proof.
  revert k. induction w as [|a w IH]; intros k; [reflexivity|].
  simpl. rewrite IH. reflexivity.
Qed.

Lemma block_at_inv (q : ptr) (h : heap) (b : block) :
  block_at q h = Some b -> exists a, q = Some a /\ h !! a = Some (Some b).
Proof.
  unfold block_at. destruct q as [a|]; [|discriminate]. simpl.
  destruct (h !! a) as [[b'|]|] eqn:Hb; simpl; try discriminate.
  intros [= ->]. exists a. split; [reflexivity|exact Hb].
Qed.

(** ** Sizes and offsets *)

Lemma sumZ_app (l1 l2 : list Z) : sumZ (l1 ++ l2) = sumZ l1 + sumZ l2.
Proof. unfold sumZ. induction l1 as [|x l1 IH]; simpl; lia. Qed.

Lemma sumZ_nonneg (l : list Z) : Forall (fun x => 0 <= x) l -> 0 <= sumZ l.
Proof. unfold sumZ. induction 1; simpl; lia. Qed.

Lemma offset_S (sizes : list Z) (k : nat) (x : Z) :
  sizes !! k = Some x -> offset sizes (S k) = offset sizes k + x.
Proof.
  intros Hk. unfold offset. rewrite (take_S_r _ _ _ Hk), sumZ_app.
  unfold sumZ. simpl. lia.
Qed.

Lemma offset_all (sizes : list Z) (k : nat) :
  (length sizes <= k)%nat -> offset sizes k = sumZ sizes.
Proof. intros Hk. unfold offset. rewrite take_ge by assumption. reflexivity. Qed.

Lemma offset_bounds (sizes : list Z) (k : nat) :
  Forall (fun x => 0 <= x) sizes -> 0 <= offset sizes k <= sumZ sizes.
Proof.
  intros Hpos. unfold offset.
  rewrite <- (take_drop k sizes) at 3. rewrite sumZ_app.
  pose proof (sumZ_nonneg (take k sizes) (Forall_take _ _ _ Hpos)).
  pose proof (sumZ_nonneg (drop k sizes) (Forall_drop _ _ _ Hpos)). lia.
Qed.

(** The cells of the first [k] slices are as many as the offset of rank
    [k]. *)
Lemma length_concat_take (sizes : list Z) (As : list block) (k : nat) :
  Forall2 (fun x (A : block) => Z.of_nat (length A) = x) sizes As ->
  Z.of_nat (length (concat (take k As))) = offset sizes k.
Proof.
  intros H. revert k. unfold offset, sumZ.
  induction H as [|x A sizes As Hx H IH]; intros [|k]; simpl; try reflexivity.
  rewrite length_app, Nat2Z.inj_add, IH. lia.
Qed.

Lemma lookup_displays_at (sizes : list Z) (k i : nat) :
  (i < length sizes)%nat ->
  displays_at sizes k !! i
  = Some (Some (if (i <=? Nat.min k (length sizes - 1))%nat
                then offset sizes i else 0)).
Proof.
  intros Hi. unfold displays_at.
  rewrite list_lookup_fmap, lookup_seq_lt by assumption. reflexivity.
Qed.

Lemma length_displays_at (sizes : list Z) (k : nat) :
  length (displays_at sizes k) = length sizes.
Proof. unfold displays_at. rewrite length_fmap. apply length_seq. Qed.

Lemma displays_at_0 (sizes : list Z) :
  replicate (length sizes) (Some 0) = displays_at sizes 0.
Proof.
  apply list_eq. intros i. destruct (decide (i < length sizes)%nat) as [Hi|Hi].
  - rewrite lookup_replicate_2, lookup_displays_at by assumption.
    destruct (Nat.leb_spec i (Nat.min 0 (length sizes - 1))); [|reflexivity].
    replace i with 0%nat by lia. reflexivity.
  - rewrite !lookup_ge_None_2; [reflexivity| |];
      rewrite ?length_displays_at, ?length_replicate; lia.
Qed.

Lemma displays_at_step (sizes : list Z) (k : nat) :
  (S k < length sizes)%nat ->
  <[S k := Some (offset sizes (S k))]> (displays_at sizes k)
  = displays_at sizes (S k).
Proof.
  intros Hk. apply list_eq. intros i.
  destruct (decide (i < length sizes)%nat) as [Hi|Hi].
  - rewrite (lookup_displays_at _ (S k)) by assumption.
    destruct (decide (i = S k)) as [->|Hne].
    + rewrite list_lookup_insert_eq by (rewrite length_displays_at; lia).
      destruct (Nat.leb_spec (S k) (Nat.min (S k) (length sizes - 1)));
        [reflexivity|lia].
    + rewrite list_lookup_insert_ne, lookup_displays_at by (assumption || lia).
      destruct (Nat.leb_spec i (Nat.min k (length sizes - 1))),
               (Nat.leb_spec i (Nat.min (S k) (length sizes - 1)));
        try lia; reflexivity.
  - rewrite !lookup_ge_None_2; [reflexivity| |];
      rewrite ?length_insert, ?length_displays_at; lia.
Qed.

Lemma displays_at_last (sizes : list Z) (k : nat) :
  (length sizes - 1 <= k)%nat ->
  displays_at sizes k = filled (offset sizes <$> seq 0 (length sizes)).
Proof.
  intros Hk. unfold displays_at, filled. rewrite <- list_fmap_compose.
  apply list_fmap_ext. intros i j Hj. apply lookup_seq in Hj as [-> Hlt]. simpl.
  destruct (Nat.leb_spec i (Nat.min k (length sizes - 1))); [reflexivity|lia].
Qed.

(** ** The synchronization (lines 71-113) *)

(** Lines 82-88 at the root: [displays] ends up holding the offsets. *)
Lemma make_displays_root (f : frame) (steps : list Z) (tp ti : ptr) :
  (1 <= length steps)%nat ->
  Z.of_nat (length steps) <= INT_MAX ->
  Forall (fun x => 0 <= x) steps ->
  sumZ steps <= INT_MAX ->
  make_displays (Z.of_nat (length steps)) 0
    (root_frame f [Some (filled steps);
                   Some (replicate (length steps) (Some 0))] tp ti)
  = Some (root_frame f
            [Some (filled steps);
             Some (filled (offset steps <$> seq 0 (length steps)))] tp ti).
Proof.
  intros Hn Hmax Hpos Hsum. unfold make_displays, root_frame, set_mem. simpl.
  erewrite (store_new _ (mem f) _ 1); [|lia|reflexivity|solve_length].
  simpl. rewrite insert_replicate, displays_at_0.
  assert (Hlast : int_sub (Z.of_nat (length steps)) 1
                  = Z.of_nat (length steps) - 1).
  { apply wrap_small. unfold is_int, INT_MIN, INT_MAX in *. lia. }
  rewrite Hlast.
  loop_invariant (fun (k : Z) (h : heap) =>
    h = mem f ++ [Some (filled steps);
                  Some (displays_at steps (Z.to_nat k))]).
  destruct Hloop as (h & -> & ->); [lia|reflexivity| |].
  - intros k h Hk ->.
    destruct (Z.eqb_spec k (Z.of_nat (length steps) - 1)) as [->|Hne]; simpl.
    + eexists. split; [reflexivity|]. do 3 f_equal.
      rewrite !displays_at_last by lia. reflexivity.
    + destruct (lookup_lt_is_Some_2 steps (Z.to_nat k) ltac:(lia)) as [x Hx].
      pose proof (offset_bounds steps (Z.to_nat k) Hpos) as Hoff.
      pose proof (offset_bounds steps (S (Z.to_nat k)) Hpos) as Hoff'.
      pose proof (offset_S steps _ _ Hx) as HS.
      erewrite (load_new (length (mem f) + 1) (mem f) _ 1 _ k
                         (offset steps (Z.to_nat k)));
        [|lia|reflexivity|lia|]; cycle 1.
      { rewrite lookup_displays_at by lia.
        destruct (Nat.leb_spec (Z.to_nat k)
                    (Nat.min (Z.to_nat k) (length steps - 1)));
          [reflexivity|lia]. }
      simpl.
      erewrite (load_new (length (mem f)) (mem f) _ 0 _ k x);
        [|lia|reflexivity|lia|]; cycle 1.
      { unfold filled. rewrite list_lookup_fmap, Hx. reflexivity. }
      simpl.
      assert (Hi : int_add k 1 = k + 1).
      { apply wrap_small. unfold is_int, INT_MIN, INT_MAX in *. lia. }
      assert (Hd : int_add (offset steps (Z.to_nat k)) x
                   = offset steps (S (Z.to_nat k))).
      { unfold int_add. rewrite wrap_small; [lia|].
        unfold is_int, INT_MIN, INT_MAX in *. lia. }
      rewrite Hi, Hd.
      erewrite (store_new _ (mem f) _ 1);
        [|lia|reflexivity|rewrite length_displays_at; lia].
      eexists. split; [reflexivity|]. simpl.
      replace (Z.to_nat (k + 1)) with (S (Z.to_nat k)) by lia.
      rewrite displays_at_step by lia. reflexivity.
  - rewrite displays_at_last by lia. reflexivity.
Qed.

(** The root's side of [MPI_Gatherv] with the sizes and offsets in place:
    the messages of ranks [k, k + 1, ...] land behind those of the ranks
    before, and the buffer ends up as the concatenation of all of them. *)
Lemma gatherv_recv_spec (g : heap) (sz dp t : addr) (steps : list Z)
    (As : list block) :
  Forall2 (fun x (A : block) => Z.of_nat (length A) = x) steps As ->
  t <> sz -> t <> dp -> (t < length g)%nat ->
  g !! sz = Some (Some (filled steps)) ->
  g !! dp = Some (Some (filled (offset steps <$> seq 0 (length steps)))) ->
  forall (n k : nat),
    (k + n = length As)%nat ->
    gatherv_recv (Some t) (Some sz) (Some dp) (Z.of_nat k) (drop k As)
      (<[t := Some (concat (take k As) ++
                    replicate (Z.to_nat (sumZ steps - offset steps k)) None)]> g)
    = Some (<[t := Some (concat As)]> g).
Proof.
  intros Hlen Hsz Hdp Ht Hsizes Hdispl.
  assert (Hpos : Forall (fun x => 0 <= x) steps).
  { eapply Forall2_Forall_l; [exact Hlen|]. apply Forall_true. intros; lia. }
  pose proof (Forall2_length _ _ _ Hlen) as Hsame.
  induction n as [|n IH]; intros k Hk.
  - rewrite drop_ge, take_ge by lia. simpl.
    rewrite offset_all by lia.
    replace (Z.to_nat (sumZ steps - sumZ steps)) with 0%nat by lia.
    simpl. rewrite app_nil_r. reflexivity.
  - destruct (lookup_lt_is_Some_2 As k ltac:(lia)) as [A HA].
    destruct (lookup_lt_is_Some_2 steps k ltac:(lia)) as [x Hx].
    assert (HxA : Z.of_nat (length A) = x).
    { eapply (Forall2_lookup_lr _ _ _ k) in Hlen; eauto. }
    pose proof (length_concat_take steps As k Hlen) as Hcat.
    pose proof (offset_S steps k x Hx) as HS.
    pose proof (offset_bounds steps (S k) Hpos) as Hbound.
    pose proof (offset_bounds steps k Hpos) as Hbound'.
    rewrite (drop_S _ _ _ HA). simpl.
    erewrite (load_Some sz _ (filled steps) _ x); cycle 1.
    { rewrite list_lookup_insert_ne by assumption. exact Hsizes. }
    { lia. }
    { unfold filled. rewrite list_lookup_fmap, Nat2Z.id, Hx. reflexivity. }
    simpl.
    erewrite (load_Some dp _ _ _ (offset steps k)); cycle 1.
    { rewrite list_lookup_insert_ne by assumption. exact Hdispl. }
    { lia. }
    { unfold filled. rewrite !list_lookup_fmap, Nat2Z.id, lookup_seq_lt by lia.
      reflexivity. }
    simpl. rewrite <- HxA, Z.eqb_refl.
    erewrite store_block_Some; cycle 1.
    { apply list_lookup_insert_eq, Ht. }
    { lia. }
    { rewrite length_app, length_replicate. lia. }
    simpl. rewrite list_insert_insert_eq.
    replace (Z.of_nat k + 1) with (Z.of_nat (S k)) by lia.
    rewrite <- (IH (S k)) by lia. do 3 f_equal.
    rewrite (take_S_r _ _ _ HA), concat_app. simpl. rewrite app_nil_r.
    rewrite <- app_assoc. 
    rewrite take_app_length' by lia. f_equal. f_equal.
    rewrite drop_app_add' by lia.
    rewrite drop_replicate. f_equal. lia.
Qed.

(** The per-process stages, on one frame. *)

Lemma alloc_root_0 (np : Z) (f : frame) :
  0 <= np ->
  alloc_root np 0 f
  = Some (root_frame f [Some (replicate (Z.to_nat np) (Some 0));
                        Some (replicate (Z.to_nat np) (Some 0))]
                     (total_participation f) (total_indiff f)).
Proof.
  intros Hnp. unfold alloc_root, root_frame.
  rewrite Z.eqb_refl, gk_ismalloc_Some by lia. cbn [mbind option_bind].
  rewrite gk_ismalloc_Some by lia. cbn [mbind option_bind].
  rewrite length_app, <- app_assoc. reflexivity.
Qed.

Lemma alloc_root_other (np id : Z) (f : frame) :
  id <> 0 -> alloc_root np id f = Some f.
Proof. intros Hid. unfold alloc_root. destruct (Z.eqb_spec id 0); [lia|reflexivity]. Qed.

Lemma make_displays_other (np id : Z) (f : frame) :
  id <> 0 -> make_displays np id f = Some f.
Proof. intros Hid. unfold make_displays. destruct (Z.eqb_spec id 0); [lia|reflexivity]. Qed.

Lemma alloc_total_root (datasize id : Z) (f : frame) (S D : block) (tp ti : ptr) :
  0 <= datasize ->
  alloc_total datasize id (root_frame f [Some S; Some D] tp ti)
  = Some (root_frame f [Some S; Some D;
                        Some (replicate (Z.to_nat datasize) None);
                        Some (replicate (Z.to_nat datasize) None)]
                     (Some (length (mem f) + 2)%nat)
                     (Some (length (mem f) + 2 + 1)%nat)).
Proof.
  intros Hd. unfold alloc_total, root_frame. cbn [mem].
  rewrite gk_imalloc_Some by lia. cbn [mbind option_bind].
  rewrite gk_imalloc_Some by lia. cbn [mbind option_bind].
  rewrite !length_app, <- !app_assoc. reflexivity.
Qed.

Lemma alloc_total_other (datasize id : Z) (f : frame) :
  0 <= datasize ->
  alloc_total datasize id f
  = Some (other_frame f [Some (replicate (Z.to_nat datasize) None);
                         Some (replicate (Z.to_nat datasize) None)]
                      (Some (length (mem f)))
                      (Some (length (mem f) + 1)%nat)).
Proof.
  intros Hd. unfold alloc_total, other_frame.
  rewrite gk_imalloc_Some by lia. cbn [mbind option_bind].
  rewrite gk_imalloc_Some by lia. cbn [mbind option_bind].
  rewrite length_app, <- app_assoc. reflexivity.
Qed.

Lemma load_slice (sel : frame -> ptr) (f : frame) (A : block) (l : heap) :
  slice sel f A -> load_block (sel f) (step (range f)) (mem f ++ l) = Some A.
Proof.
  intros [Hblock Hlen]. apply block_at_inv in Hblock as (a & -> & Ha).
  apply load_block_all; [|lia]. apply lookup_app_l_Some, Ha.
Qed.

(** Lines 106-113 at the root. *)
Lemma finish_root (f : frame) (A I S D TP TI : block) :
  block_at (partial_participation f) (mem f) = Some A ->
  block_at (partial_indiff f) (mem f) = Some I ->
  partial_participation f <> partial_indiff f ->
  finish 0 (root_frame f [Some S; Some D; Some TP; Some TI]
                       (Some (length (mem f) + 2)%nat)
                       (Some (length (mem f) + 2 + 1)%nat))
  = Some (synchronized TP TI true f).
Proof.
  intros HA HI Hne. unfold finish, synchronized, root_frame.
  cbn [mem partial_participation partial_indiff sizes displays
       total_participation total_indiff].
  apply block_at_inv in HA as (a & Hpp & Ha).
  apply block_at_inv in HI as (b & Hpi & Hb).
  rewrite Hpp, Hpi in *. cbn [release].
  assert (Hab : a <> b) by congruence.
  pose proof (lookup_lt_Some _ _ _ Ha) as Hlta.
  pose proof (lookup_lt_Some _ _ _ Hb) as Hltb.
  rewrite (gk_free_Some a _ A) by (apply lookup_app_l_Some, Ha).
  cbn [mbind option_bind]. rewrite insert_app_l by assumption.
  rewrite (gk_free_Some b _ I)
    by (apply lookup_app_l_Some; rewrite list_lookup_insert_ne; assumption).
  cbn [mbind option_bind].
  rewrite insert_app_l by (rewrite length_insert; assumption).
  rewrite Z.eqb_refl.
  erewrite (gk_free_new _ _ _ 0); [|rewrite !length_insert; lia|reflexivity].
  cbn [mbind option_bind].
  erewrite (gk_free_new _ _ _ 1); [|rewrite !length_insert; lia|reflexivity].
  reflexivity.
Qed.

(** Lines 106-113 on the other ranks. *)
Lemma finish_other (id : Z) (f : frame) (A I TP TI : block) :
  id <> 0 ->
  block_at (partial_participation f) (mem f) = Some A ->
  block_at (partial_indiff f) (mem f) = Some I ->
  partial_participation f <> partial_indiff f ->
  finish id (other_frame f [Some TP; Some TI]
                         (Some (length (mem f)))
                         (Some (length (mem f) + 1)%nat))
  = Some (synchronized TP TI false f).
Proof.
  intros Hid HA HI Hne. unfold finish, synchronized, other_frame.
  cbn [mem partial_participation partial_indiff sizes displays
       total_participation total_indiff].
  apply block_at_inv in HA as (a & Hpp & Ha).
  apply block_at_inv in HI as (b & Hpi & Hb).
  rewrite Hpp, Hpi in *. cbn [release].
  assert (Hab : a <> b) by congruence.
  pose proof (lookup_lt_Some _ _ _ Ha) as Hlta.
  pose proof (lookup_lt_Some _ _ _ Hb) as Hltb.
  rewrite (gk_free_Some a _ A) by (apply lookup_app_l_Some, Ha).
  cbn [mbind option_bind]. rewrite insert_app_l by assumption.
  rewrite (gk_free_Some b _ I)
    by (apply lookup_app_l_Some; rewrite list_lookup_insert_ne; assumption).
  cbn [mbind option_bind].
  rewrite insert_app_l by (rewrite length_insert; assumption).
  destruct (Z.eqb_spec id 0); [lia|]. cbn [mbind option_bind length app].
  rewrite Nat.add_0_r. reflexivity.
Qed.

Section Sync.

Variables (datasize : Z) (root : frame) (others : list frame).
Variables (As Is : list block).

Local Abbreviation w := (root :: others).
Local Abbreviation steps := ((fun f => step (range f)) <$> w).
Local Abbreviation zeros := (replicate (length w) (Some 0)).
Local Abbreviation blank := (replicate (Z.to_nat datasize) (@None Z)).
Local Abbreviation offsets := (offset steps <$> seq 0 (length w)).

Hypothesis Hdata : 0 <= datasize <= INT_MAX.
Hypothesis Hprocs : Z.of_nat (length w) <= INT_MAX.
Hypothesis HA : Forall2 (slice partial_participation) w As.
Hypothesis HI : Forall2 (slice partial_indiff) w Is.
Hypothesis Hdistinct :
  Forall (fun f => partial_participation f <> partial_indiff f) w.
Hypothesis Hsum : sumZ steps = datasize.

Lemma slice_lengths (sel : frame -> ptr) (Bs : list block) :
  Forall2 (slice sel) w Bs ->
  Forall2 (fun x (B : block) => Z.of_nat (length B) = x) steps Bs.
Proof.
  intros H. apply Forall2_fmap_l. eapply Forall2_impl; [exact H|].
  intros f B [_ Hlen]. exact Hlen.
Qed.

Lemma steps_nonneg : Forall (fun x => 0 <= x) steps.
Proof.
  eapply Forall2_Forall_l; [exact (slice_lengths _ _ HA)|].
  apply Forall_true. intros; lia.
Qed.

Lemma length_assembled (sel : frame -> ptr) (Bs : list block) :
  Forall2 (slice sel) w Bs -> length (concat Bs) = Z.to_nat datasize.
Proof.
  intros H. pose proof (slice_lengths _ _ H) as Hlen.
  pose proof (length_concat_take _ _ (length Bs) Hlen) as Hcat.
  rewrite take_ge in Hcat by lia.
  rewrite offset_all in Hcat by (rewrite (Forall2_length _ _ _ Hlen); lia).
  lia.
Qed.

(** Lines 75-78. *)
Lemma stage_alloc_root :
  spmd (alloc_root (Z.of_nat (length w))) w
  = Some (root_frame root [Some zeros; Some zeros]
                     (total_participation root) (total_indiff root)
          :: others).
Proof.
  unfold spmd. cbn [spmd_from].
  rewrite alloc_root_0, Nat2Z.id by lia. cbn [mbind option_bind].
  rewrite (spmd_from_uniform id), list_fmap_id; [reflexivity|].
  intros id a Hid. apply alloc_root_other. lia.
Qed.

(** Line 80. *)
Lemma stage_gather (tp ti : ptr) :
  MPI_Gather (fun f => step (range f)) sizes
    (root_frame root [Some zeros; Some zeros] tp ti :: others)
  = Some (root_frame root [Some (filled steps); Some zeros] tp ti :: others).
Proof.
  unfold MPI_Gather, root_frame, set_mem. cbn [mem sizes].
  erewrite (store_block_new_all _ (mem root) _ 0);
    [|lia|reflexivity|simpl; rewrite length_fmap, length_replicate; lia].
  simpl. unfold filled. rewrite <- list_fmap_compose. reflexivity.
Qed.

(** Lines 82-88. *)
Lemma stage_displays (tp ti : ptr) :
  spmd (make_displays (Z.of_nat (length w)))
    (root_frame root [Some (filled steps); Some zeros] tp ti :: others)
  = Some (root_frame root [Some (filled steps); Some (filled offsets)] tp ti
          :: others).
Proof.
  unfold spmd. cbn [spmd_from].
  pose proof (make_displays_root root steps tp ti) as Hroot.
  rewrite length_fmap in Hroot.
  rewrite Hroot; [|simpl; lia|exact Hprocs|exact steps_nonneg|lia].
  cbn [mbind option_bind].
  rewrite (spmd_from_uniform id), list_fmap_id; [reflexivity|].
  intros id a Hid. apply make_displays_other. lia.
Qed.

(** Lines 90-91. *)
Lemma stage_alloc_total (S D : block) :
  spmd (alloc_total datasize)
    (root_frame root [Some S; Some D]
                (total_participation root) (total_indiff root) :: others)
  = Some (root_frame root [Some S; Some D; Some blank; Some blank]
                     (Some (length (mem root) + 2)%nat)
                     (Some (length (mem root) + 2 + 1)%nat)
          :: ((fun f => other_frame f [Some blank; Some blank]
                          (Some (length (mem f)))
                          (Some (length (mem f) + 1)%nat)) <$> others)).
Proof.
  unfold spmd. cbn [spmd_from].
  rewrite alloc_total_root by lia. cbn [mbind option_bind].
  erewrite spmd_from_uniform; [reflexivity|].
  intros id f _. rewrite alloc_total_other by lia. reflexivity.
Qed.

(** [MPI_Gatherv] of the buffers [sel] into the block at position [j] of
    the root's new blocks (lines 93-97). *)
Lemma stage_gatherv (sel recv : frame -> ptr) (Bs : list block) (l : heap)
    (tp ti : ptr) (j : nat) (rest : list frame) :
  (forall f l tp ti, sel (root_frame f l tp ti) = sel f) ->
  recv (root_frame root l tp ti) = Some (length (mem root) + j)%nat ->
  Forall2 (fun f f' => sel f' = sel f /\ range f' = range f /\
                       exists l', mem f' = mem f ++ l') others rest ->
  Forall2 (slice sel) w Bs ->
  l !! 0%nat = Some (Some (filled steps)) ->
  l !! 1%nat = Some (Some (filled offsets)) ->
  l !! j = Some (Some blank) -> (2 <= j)%nat ->
  MPI_Gatherv sel (fun f => step (range f)) recv sizes displays
    (root_frame root l tp ti :: rest)
  = Some (root_frame root (<[j := Some (concat Bs)]> l) tp ti :: rest).
Proof.
  intros Hsel Hrecv Hrest HBs Hl0 Hl1 Hlj Hj.
  pose proof (slice_lengths _ _ HBs) as Hlens.
  unfold MPI_Gatherv.
  assert (Hmsgs : mapM (fun f => load_block (sel f) (step (range f)) (mem f))
                       (root_frame root l tp ti :: rest) = Some Bs).
  { apply mapM_Some_2.
    inversion HBs as [|? B0 ? Bs' Hroot Hothers]; subst.
    constructor.
    - rewrite Hsel. unfold root_frame. cbn [mem range].
      apply load_slice, Hroot.
    - clear -Hrest Hothers. revert Bs' Hothers.
      induction Hrest as [|f f' fs fs' (Hs & Hr & l' & Hm) _ IH];
        intros Bs' Hothers; inversion Hothers; subst; constructor; auto.
      rewrite Hs, Hr, Hm. apply load_slice. assumption. }
  rewrite Hmsgs. cbn [mbind option_bind]. rewrite Hrecv.
  change (mem (root_frame root l tp ti)) with (mem root ++ l).
  change (sizes (root_frame root l tp ti)) with (Some (length (mem root))).
  change (displays (root_frame root l tp ti))
    with (Some (length (mem root) + 1)%nat).
  pose proof (gatherv_recv_spec (mem root ++ l) (length (mem root))
                (length (mem root) + 1) (length (mem root) + j) steps Bs
                Hlens ltac:(lia) ltac:(lia)) as Hrecv_spec.
  pose proof (lookup_lt_Some _ _ _ Hlj) as Hjlt.
  specialize (Hrecv_spec ltac:(rewrite length_app; lia)).
  rewrite (lookup_new _ _ _ 0), (lookup_new _ _ _ 1), length_fmap
    in Hrecv_spec by lia.
  specialize (Hrecv_spec Hl0 Hl1 (length Bs) 0%nat eq_refl).
  change (drop 0 Bs) with Bs in Hrecv_spec.
  change (take 0 Bs) with (@nil block) in Hrecv_spec.
  change (Z.of_nat 0) with 0 in Hrecv_spec.
  cbn [concat app] in Hrecv_spec.
  change (offset steps 0) with 0 in Hrecv_spec.
  rewrite Hsum, Z.sub_0_r in Hrecv_spec.
  rewrite (list_insert_id (mem root ++ l)) in Hrecv_spec
    by (rewrite lookup_beyond; exact Hlj).
  rewrite Hrecv_spec. cbn [mbind option_bind].
  unfold set_mem, root_frame. cbn [mem range partial_participation
    partial_indiff sizes displays total_participation total_indiff].
  rewrite insert_app_r. reflexivity.
Qed.

(** [MPI_Bcast] of the assembled block at position [j] of the root's new
    blocks into the block at position [jo] of everyone else's (lines
    101-102). *)
Lemma stage_bcast (buffer : frame -> ptr) (T B : block) (l lo : heap)
    (tp ti : ptr) (tpo tio : frame -> ptr) (j jo : nat) :
  buffer (root_frame root l tp ti) = Some (length (mem root) + j)%nat ->
  (forall f, buffer (other_frame f lo (tpo f) (tio f))
             = Some (length (mem f) + jo)%nat) ->
  l !! j = Some (Some T) -> length T = Z.to_nat datasize ->
  lo !! jo = Some (Some B) -> length B = Z.to_nat datasize ->
  MPI_Bcast buffer datasize
    (root_frame root l tp ti
     :: ((fun f => other_frame f lo (tpo f) (tio f)) <$> others))
  = Some (root_frame root l tp ti
          :: ((fun f => other_frame f (<[jo := Some T]> lo) (tpo f) (tio f))
              <$> others)).
Proof.
  intros Hroot Hother Hlj HT Hlo HB. unfold MPI_Bcast.
  rewrite Hroot. change (mem (root_frame root l tp ti)) with (mem root ++ l).
  erewrite (load_block_new _ _ _ j); [|reflexivity|exact Hlj|lia].
  cbn [mbind option_bind].
  erewrite (mapM_Some_2 _ _ _); [reflexivity|].
  apply Forall2_fmap, Forall_Forall2_diag, Forall_true. intros f.
  rewrite Hother.
  change (mem (other_frame f lo (tpo f) (tio f))) with (mem f ++ lo).
  erewrite (store_block_new_all _ _ _ jo); [|reflexivity|exact Hlo|lia].
  reflexivity.
Qed.

(** Lines 71-113 on frames whose partial buffers hold the slices [As] and
    [Is]: every process ends with the concatenation of the slices. *)
Lemma synchronize_spec :
  synchronize datasize w
  = Some (synchronized_world (concat As) (concat Is) w).
Proof.
  unfold synchronize.
  rewrite stage_alloc_root. cbn [mbind option_bind].
  rewrite stage_gather. cbn [mbind option_bind].
  rewrite stage_displays. cbn [mbind option_bind].
  rewrite stage_alloc_total. cbn [mbind option_bind].
  assert (Hrest : forall sel : frame -> ptr,
    (forall f l tp ti, sel (other_frame f l tp ti) = sel f) ->
    Forall2 (fun f f' => sel f' = sel f /\ range f' = range f /\
                         exists l', mem f' = mem f ++ l') others
      ((fun f => other_frame f [Some blank; Some blank]
                   (Some (length (mem f)))
                   (Some (length (mem f) + 1)%nat)) <$> others)).
  { intros sel Hsel. apply Forall2_fmap_r, Forall_Forall2_diag, Forall_true.
    intros f. unfold compose. rewrite Hsel. split; [reflexivity|].
    split; [reflexivity|]. eexists; reflexivity. }
  rewrite (stage_gatherv partial_participation total_participation As _ _ _ 2);
    [|reflexivity|reflexivity|apply Hrest; reflexivity|exact HA
     |reflexivity|reflexivity|reflexivity|lia].
  cbn [mbind option_bind insert list_insert].
  rewrite (stage_gatherv partial_indiff total_indiff Is _ _ _ 3);
    [|reflexivity|simpl; f_equal; lia|apply Hrest; reflexivity|exact HI
     |reflexivity|reflexivity|reflexivity|lia].
  cbn [mbind option_bind insert list_insert].
  pose proof (length_assembled _ _ HA) as HlenA.
  pose proof (length_assembled _ _ HI) as HlenI.
  rewrite (stage_bcast total_participation (concat As) blank _ _ _ _ _ _ 2 0);
    [|reflexivity|intros; simpl; f_equal; lia|reflexivity|exact HlenA|reflexivity
     |apply length_replicate].
  cbn [mbind option_bind insert list_insert].
  rewrite (stage_bcast total_indiff (concat Is) blank _ _ _ _ _ _ 3 1);
    [|simpl; f_equal; lia|reflexivity|reflexivity|exact HlenI|reflexivity
     |apply length_replicate].
  cbn [mbind option_bind insert list_insert].
  unfold spmd. cbn [spmd_from].
  inversion HA as [|? A0 ? As' [HA0 _] HAs]; subst.
  inversion HI as [|? I0 ? Is' [HI0 _] HIs]; subst.
  inversion Hdistinct as [|? ? Hne0 Hnes]; subst.
  rewrite (finish_root root A0 I0) by assumption. cbn [mbind option_bind].
  rewrite spmd_from_fmap.
  rewrite (spmd_from_Forall
             (synchronized (concat (A0 :: As')) (concat (I0 :: Is')) false)
             (fun f => is_Some (block_at (partial_participation f) (mem f)) /\
                       is_Some (block_at (partial_indiff f) (mem f)) /\
                       partial_participation f <> partial_indiff f)).
  - reflexivity.
  - intros id f Hid ([A HfA] & [I HfI] & Hne).
    apply (finish_other id f A I); (assumption || lia).
  - apply Forall_and; split; [|apply Forall_and; split; [|exact Hnes]].
    + eapply Forall2_Forall_l; [exact HAs|]. apply Forall_true.
      intros A f [HfA _]. eexists; exact HfA.
    + eapply Forall2_Forall_l; [exact HIs|]. apply Forall_true.
      intros I f [HfI _]. eexists; exact HfI.
Qed.

End Sync.

(** ** Users in rank order *)

Lemma seqZ_app (m n1 n2 : Z) :
  0 <= n1 -> 0 <= n2 -> seqZ m (n1 + n2) = seqZ m n1 ++ seqZ (m + n1) n2.
Proof.
  intros H1 H2. apply list_eq. intros i.
  destruct (decide (Z.of_nat i < n1)) as [Hi|Hi].
  - rewrite lookup_app_l by (rewrite length_seqZ; lia).
    rewrite !lookup_seqZ_lt by lia. reflexivity.
  - rewrite lookup_app_r by (rewrite length_seqZ; lia). rewrite length_seqZ.
    destruct (decide (Z.of_nat i < n1 + n2)) as [Hi'|Hi'].
    + rewrite !lookup_seqZ_lt by lia. f_equal. lia.
    + rewrite !lookup_seqZ_ge by lia. reflexivity.
Qed.

Lemma seqZ_snoc (m : Z) (k : nat) :
  seqZ m (Z.of_nat (S k)) = seqZ m (Z.of_nat k) ++ [m + Z.of_nat k].
Proof.
  replace (Z.of_nat (S k)) with (Z.of_nat k + 1) by lia.
  rewrite seqZ_app by lia. reflexivity.
Qed.

Lemma mapM_app {A B} (f : A -> option B) (l1 l2 : list A) :
  mapM f (l1 ++ l2)
  = (k1 ← mapM f l1; k2 ← mapM f l2; Some (k1 ++ k2)).
Proof.
  induction l1 as [|x l1 IH]; simpl.
  - destruct (mapM f l2); reflexivity.
  - destruct (f x); simpl; [|reflexivity]. rewrite IH.
    destruct (mapM f l1); simpl; [|reflexivity].
    destruct (mapM f l2); reflexivity.
Qed.

(** Treating the users block by block is treating them all in order. *)
Lemma mapM_concat {A B} (f : A -> option B) (ls : list (list A)) :
  mapM f (concat ls) = (ks ← mapM (mapM f) ls; Some (concat ks)).
Proof.
  induction ls as [|l ls IH]; simpl; [reflexivity|].
  rewrite mapM_app, IH. destruct (mapM f l); simpl; [|reflexivity].
  destruct (mapM (mapM f) ls); reflexivity.
Qed.

Lemma mapM_fmap {A B C} (g : A -> B) (f : B -> option C) (l : list A) :
  mapM f (g <$> l) = mapM (fun a => f (g a)) l.
Proof.
  induction l as [|a l IH]; [reflexivity|].
  change (mapM f (g <$> a :: l))
    with (y ← f (g a); k ← mapM f (g <$> l); mret (y :: k)).
  rewrite IH. reflexivity.
Qed.

Section Tiling.

Variables datasize num_procs : Z.
Hypothesis Hdata : 0 <= datasize <= INT_MAX.
Hypothesis Hprocs : 1 <= num_procs <= INT_MAX.

(** The blocks of ranks [0 .. k-1] are the users below the start of rank
    [k]. *)
Lemma users_below (k : nat) :
  Z.of_nat k <= num_procs ->
  concat (users_of datasize num_procs <$> seqZ 0 (Z.of_nat k))
  = seqZ 0 (datasize / num_procs * Z.of_nat k
            + Z.min (Z.of_nat k) (datasize mod num_procs)).
Proof.
  induction k as [|k IH]; intros Hk.
  - pose proof (Z.mod_pos_bound datasize num_procs ltac:(lia)).
    rewrite (seqZ_nil 0 (_ + _)) by lia. reflexivity.
  - rewrite seqZ_snoc, fmap_app, concat_app, IH by lia.
    cbn [fmap list_fmap concat]. rewrite app_nil_r, Z.add_0_l. unfold users_of.
    rewrite (block_range_eq _ _ Hdata Hprocs) by lia. cbn [startu step].
    pose proof (Z.mod_pos_bound datasize num_procs ltac:(lia)).
    pose proof (Z.div_pos datasize num_procs ltac:(lia) ltac:(lia)).
    set (start := datasize / num_procs * Z.of_nat k
                  + Z.min (Z.of_nat k) (datasize mod num_procs)).
    replace (seqZ start) with (seqZ (0 + start)) by (f_equal; lia).
    rewrite <- seqZ_app.
    + f_equal. subst start.
      destruct (Z.ltb_spec (Z.of_nat k) (datasize mod num_procs)); lia.
    + subst start. nia.
    + destruct (Z.ltb_spec (Z.of_nat k) (datasize mod num_procs)); lia.
Qed.

Lemma users_all :
  concat (users_of datasize num_procs <$> seqZ 0 num_procs) = seqZ 0 datasize.
Proof.
  pose proof (users_below (Z.to_nat num_procs)) as H.
  rewrite Z2Nat.id in H by lia. rewrite H by lia. f_equal.
  pose proof (Z.div_mod datasize num_procs ltac:(lia)).
  pose proof (Z.mod_pos_bound datasize num_procs ltac:(lia)). lia.
Qed.

Lemma steps_length (ids : list Z) :
  Forall (fun id => 0 <= id < num_procs) ids ->
  sumZ ((fun id => step (block_range datasize num_procs id)) <$> ids)
  = Z.of_nat (length (concat (users_of datasize num_procs <$> ids))).
Proof.
  induction 1 as [|id l Hid Hall IH]; [reflexivity|].
  cbn [fmap list_fmap concat]. rewrite length_app, Nat2Z.inj_add, <- IH.
  unfold sumZ. cbn [foldr].
  f_equal. unfold users_of. rewrite length_seqZ.
  pose proof (block_range_bounds _ _ Hdata Hprocs id Hid) as (? & _). lia.
Qed.

Lemma steps_sum :
  sumZ ((fun id => step (block_range datasize num_procs id))
        <$> seqZ 0 num_procs) = datasize.
Proof.
  rewrite steps_length, users_all, length_seqZ; [lia|].
  apply Forall_forall. intros id Hid. apply elem_of_seqZ in Hid. lia.
Qed.

End Tiling.

(** ** The whole round *)

Section WholeRound.

Variable lslim_training_error : Z -> Z -> spec_float.
Variable num_clusters : Z.
Variables (datasize num_procs : Z) (P : list Z).
Hypothesis Hdata : 0 <= datasize <= INT_MAX.
Hypothesis Hprocs : 1 <= num_procs <= INT_MAX.

Local Abbreviation one := (learn_one lslim_training_error num_clusters P).
Local Abbreviation rank_users := (users_of datasize num_procs).

(** Lines 44-69 on ranks [id, id + 1, ...]. *)
Lemma spmd_local_pass (world : list (ptr * heap)) (id : Z) :
  0 <= id -> id + Z.of_nat (length world) <= num_procs ->
  Forall (holds P) world ->
  spmd_from id
    (local_pass lslim_training_error num_clusters datasize num_procs) world
  = (vss ← mapM (fun id => mapM one (rank_users id))
                (seqZ id (Z.of_nat (length world)));
     Some (passed_world datasize num_procs id world vss)).
Proof.
  intros Hid Hlen Hworld. revert id Hid Hlen.
  induction Hworld as [|[q h] world Hq Hworld IH]; intros id Hid Hlen.
  - reflexivity.
  - apply block_at_inv in Hq as (p & Hp & Hblock). simpl in Hp. subst q.
    cbn [length] in *. rewrite seqZ_cons by lia.
    cbn [spmd_from mapM].
    rewrite (local_pass_spec _ _ h p P Hblock) by lia.
    destruct (mapM one (rank_users id)) as [vs|]; [|reflexivity].
    cbn [mbind option_bind mret option_ret].
    replace (Z.pred (Z.of_nat (S (length world))))
      with (Z.of_nat (length world)) by lia.
    rewrite IH by lia. unfold Z.succ.
    destruct (mapM _ (seqZ (id + 1) _)) as [vss|]; reflexivity.
Qed.

(** What the frames of [passed_world] offer to the synchronization. *)
Lemma passed_slices (world : list (ptr * heap)) (vss : list (list (Z * Z)))
    (id : Z) :
  0 <= id -> id + Z.of_nat (length world) <= num_procs ->
  Forall2 (fun i (vs : list (Z * Z)) => length vs = length (rank_users i))
          (seqZ id (Z.of_nat (length world))) vss ->
  let w := passed_world datasize num_procs id world vss in
  length w = length world /\
  Forall2 (slice partial_participation) w
          ((fun vs => filled (fst <$> vs)) <$> vss) /\
  Forall2 (slice partial_indiff) w
          ((fun vs => filled (snd <$> vs)) <$> vss) /\
  Forall (fun f => partial_participation f <> partial_indiff f) w /\
  (fun f => step (range f)) <$> w
  = (fun i => step (block_range datasize num_procs i))
    <$> seqZ id (Z.of_nat (length world)) /\
  forall TP TI r,
    synchronized TP TI r <$> w = returned TP TI r <$> world.
Proof.
  revert vss id. induction world as [|[q h] world IH]; intros vss id Hid Hlen Hvss.
  - cbn [length] in Hvss. rewrite seqZ_nil in Hvss by lia.
    inversion Hvss; subst. cbv zeta. cbn [passed_world fmap list_fmap].
    repeat split; constructor.
  - cbn [length] in *. rewrite seqZ_cons in * by lia.
    replace (Z.pred (Z.of_nat (S (length world))))
      with (Z.of_nat (length world)) in * by lia.
    inversion Hvss as [|? vs ? vss' Hvs Hrest]; subst.
    destruct (IH vss' (Z.succ id) ltac:(lia) ltac:(lia) Hrest)
      as (IHlen & IHA & IHI & IHne & IHsteps & IHret).
    unfold Z.succ in *. cbn [passed_world fmap list_fmap length].
    pose proof (block_range_bounds _ _ Hdata Hprocs id ltac:(lia))
      as (Hstep & _).
    cbv zeta in Hstep.
    assert (Hlenvs : Z.of_nat (length vs)
                     = step (block_range datasize num_procs id)).
    { rewrite Hvs. unfold users_of. rewrite length_seqZ. lia. }
    split; [f_equal; exact IHlen|].
    split; [|split; [|split; [|split]]].
    + constructor; [|exact IHA]. unfold slice, passed. cbn [mem range
        partial_participation]. split.
      * apply block_at_Some. rewrite (lookup_new _ _ _ 0) by lia. reflexivity.
      * unfold filled. rewrite !length_fmap. exact Hlenvs.
    + constructor; [|exact IHI]. unfold slice, passed. cbn [mem range
        partial_indiff]. split.
      * apply block_at_Some. rewrite (lookup_new _ _ _ 1) by lia. reflexivity.
      * unfold filled. rewrite !length_fmap. exact Hlenvs.
    + constructor; [|exact IHne]. unfold passed.
      cbn [partial_participation partial_indiff]. intros [= Heq]. lia.
    + f_equal. exact IHsteps.
    + intros TP TI r. f_equal; [|apply IHret].
      unfold synchronized, returned, passed.
      cbn [mem partial_participation partial_indiff release snd].
      rewrite (insert_new (length h) h _ 0) by lia.
      rewrite (insert_new (length h + 1) h _ 1), !length_app by lia.
      cbn [insert list_insert length]. rewrite <- !app_assoc. reflexivity.
Qed.

Lemma concat_filled {A} (g : A -> Z) (vss : list (list A)) :
  concat ((fun vs => filled (g <$> vs)) <$> vss) = filled (g <$> concat vss).
Proof.
  unfold filled. induction vss as [|vs vss IH]; [reflexivity|].
  cbn [fmap list_fmap concat]. rewrite !fmap_app. f_equal. exact IH.
Qed.

(** The round on [num_procs] processes that all hold [P]: it fails when
    the sequential run fails, and otherwise leaves the results of the
    sequential run on every process. *)
Lemma round_spec (world : list (ptr * heap)) :
  Z.of_nat (length world) = num_procs ->
  Forall (holds P) world ->
  lslim_learn_pu_all lslim_training_error num_clusters datasize world
  = (vs ← sequential_round lslim_training_error num_clusters datasize P;
     Some (returned_world (filled (fst <$> vs)) (filled (snd <$> vs)) world)).
Proof.
  intros Hlen Hworld. unfold lslim_learn_pu_all, sequential_round, spmd.
  cbv zeta. rewrite Hlen, spmd_local_pass by (assumption || lia).
  rewrite <- (users_all _ _ Hdata Hprocs), mapM_concat, mapM_fmap, Hlen.
  destruct (mapM _ (seqZ 0 num_procs)) as [vss|] eqn:Hvss; [|reflexivity].
  cbn [mbind option_bind].
  assert (Hlens : Forall2 (fun i (vs : list (Z * Z)) =>
                             length vs = length (rank_users i))
                          (seqZ 0 (Z.of_nat (length world))) vss).
  { rewrite Hlen. apply mapM_Some_1 in Hvss.
    eapply Forall2_impl; [exact Hvss|]. intros i vs Hi. cbv beta in Hi.
    symmetry. eapply length_mapM, Hi. }
  destruct (passed_slices world vss 0 ltac:(lia) ltac:(lia) Hlens)
    as (Hlenw & HA & HI & Hne & Hsteps & Hret).
  destruct world as [|x world']; [simpl in Hlen; lia|].
  destruct (passed_world datasize num_procs 0 (x :: world') vss)
    as [|root others] eqn:Hw; [discriminate|].
  erewrite (synchronize_spec datasize root others); try eassumption.
  - rewrite !concat_filled. f_equal. cbn [synchronized_world returned_world].
    pose proof (Hret (filled (fst <$> concat vss))
                     (filled (snd <$> concat vss)) true) as Hroot.
    pose proof (Hret (filled (fst <$> concat vss))
                     (filled (snd <$> concat vss)) false) as Hothers.
    cbn [fmap list_fmap] in Hroot, Hothers.
    f_equal; congruence.
  - rewrite Hlenw. lia.
  - rewrite Hsteps, Hlen. apply steps_sum; assumption.
Qed.

End WholeRound.

(** ** The claims about the round *)

Lemma lookup_concat {A} (ls : list (list A)) (k j : nat) (l : list A) (x : A) :
  ls !! k = Some l -> l !! j = Some x ->
  concat ls !! (length (concat (take k ls)) + j)%nat = Some x.
Proof.
  intros Hk Hj. pose proof (take_drop_middle ls k l Hk) as Hsplit.
  remember (take k ls) as before. remember (drop (S k) ls) as after.
  rewrite <- Hsplit, concat_app, lookup_beyond. simpl.
  apply lookup_app_l_Some, Hj.
Qed.

Lemma vectors_synchronized (TP TI : block) (r : bool) (f : frame) :
  vectors (synchronized TP TI r f) = Some (TP, TI).
Proof.
  unfold vectors, synchronized.
  assert (Hlen : length (release (partial_indiff f)
                   (release (partial_participation f) (mem f)))
                 = length (mem f)).
  { destruct (partial_indiff f), (partial_participation f); simpl;
      rewrite ?length_insert; reflexivity. }
  set (h := release _ _) in *. set (extra := if r then _ else _).
  rewrite <- Hlen, <- length_app, app_assoc.
  rewrite (block_at_Some (length (h ++ extra)) _ TP)
    by (rewrite (lookup_new _ _ _ 0) by lia; reflexivity).
  rewrite (block_at_Some (length (h ++ extra) + 1) _ TI)
    by (rewrite (lookup_new _ _ _ 1) by lia; reflexivity).
  reflexivity.
Qed.

(** C4: whatever contiguous slices the processes bring, the
    synchronization returns on every process the same two arrays, the
    slices in rank order: as long as the user count, with cell [j] of the
    slice of rank [k] at index [offset k + j], where [offset k] is the sum
    of the sizes of ranks [0 .. k-1]. *)
Theorem synchronize_assembles (datasize : Z) (w : list frame)
    (As Is : list block) :
  0 <= datasize <= INT_MAX ->
  1 <= Z.of_nat (length w) <= INT_MAX ->
  Forall2 (slice partial_participation) w As ->
  Forall2 (slice partial_indiff) w Is ->
  Forall (fun f => partial_participation f <> partial_indiff f) w ->
  sumZ ((fun f => step (range f)) <$> w) = datasize ->
  let sizes := (fun f => step (range f)) <$> w in
  exists outs,
    synchronize datasize w = Some outs /\
    length outs = length w /\
    Forall (fun out => vectors out = Some (concat As, concat Is)) outs /\
    Z.of_nat (length (concat As)) = datasize /\
    Z.of_nat (length (concat Is)) = datasize /\
    (forall k A j c, As !! k = Some A -> A !! j = Some c ->
       concat As !! (Z.to_nat (offset sizes k) + j)%nat = Some c) /\
    (forall k I j c, Is !! k = Some I -> I !! j = Some c ->
       concat Is !! (Z.to_nat (offset sizes k) + j)%nat = Some c).
Proof.
  intros Hdata Hprocs HA HI Hne Hsum sizes.
  destruct w as [|root others]; [simpl in Hprocs; lia|].
  exists (synchronized_world (concat As) (concat Is) (root :: others)).
  split; [apply (synchronize_spec datasize root others As Is); auto; lia|].
  split; [simpl; rewrite length_fmap; reflexivity|].
  split.
  { simpl. constructor; [apply vectors_synchronized|].
    apply Forall_fmap, Forall_true. intros f. apply vectors_synchronized. }
  pose proof (length_assembled datasize root others Hsum _ _ HA) as HlenA.
  pose proof (length_assembled datasize root others Hsum _ _ HI) as HlenI.
  pose proof (slice_lengths root others _ _ HA) as HsA.
  pose proof (slice_lengths root others _ _ HI) as HsI.
  split; [lia|]. split; [lia|]. split.
  - intros k A j c Hk Hj. subst sizes.
    rewrite <- (length_concat_take _ _ k HsA), Nat2Z.id.
    eapply lookup_concat; eassumption.
  - intros k I j c Hk Hj. subst sizes.
    rewrite <- (length_concat_take _ _ k HsI), Nat2Z.id.
    eapply lookup_concat; eassumption.
Qed.

Lemma synchronize_assembles_witness :
  exists outs,
    synchronize 3 Scenario.after_pass = Some outs /\
    length outs = 2%nat /\
    Forall (fun out => vectors out
                       = Some ([Some 5; Some 6; Some 7],
                               [Some 0; Some 1; Some 1])) outs.
Proof.
  destruct (synchronize_assembles 3 Scenario.after_pass
              Scenario.slices_participation Scenario.slices_indiff)
    as (outs & Hrun & Hlen & Hall & _).
  - unfold INT_MAX. lia.
  - unfold INT_MAX. simpl. lia.
  - repeat constructor.
  - repeat constructor.
  - repeat constructor; discriminate.
  - reflexivity.
  - exists outs. split; [exact Hrun|]. split; [exact Hlen|exact Hall].
Defined.

Lemma vectors_returned (TP TI : block) (r : bool) (input : ptr * heap) :
  vectors (returned TP TI r input) = Some (TP, TI).
Proof.
  unfold vectors, returned. set (extra := if r then _ else _).
  rewrite (block_at_Some (length (snd input) + 2 + length extra) _ TP).
  - rewrite (block_at_Some (length (snd input) + 2 + length extra + 1) _ TI);
      [reflexivity|].
    rewrite (lookup_new _ _ _ (2 + length extra + 1)) by lia.
    destruct r; reflexivity.
  - rewrite (lookup_new _ _ _ (2 + length extra)) by lia.
    destruct r; reflexivity.
Qed.

(** C5: on any number of processes, all holding the same input vector,
    the round fails exactly when the sequential run over the users in index
    order fails, and otherwise every process gets back the two vectors of
    the sequential run; the vectors do not depend on how many processes
    there are. *)
Theorem round_deterministic (lslim_training_error : Z -> Z -> spec_float)
    (num_clusters datasize : Z) (P : list Z) (world : list (ptr * heap)) :
  0 <= datasize <= INT_MAX ->
  1 <= Z.of_nat (length world) <= INT_MAX ->
  Forall (holds P) world ->
  (fun outs => vectors <$> outs)
  <$> lslim_learn_pu_all lslim_training_error num_clusters datasize world
  = (fun vs => replicate (length world)
                 (Some (filled (fst <$> vs), filled (snd <$> vs))))
    <$> sequential_round lslim_training_error num_clusters datasize P.
Proof.
  intros Hdata Hprocs Hworld.
  rewrite (round_spec _ _ _ _ P Hdata Hprocs world eq_refl Hworld).
  destruct (sequential_round _ _ _ _) as [vs|]; [|reflexivity].
  cbn [mbind option_bind fmap option_fmap option_map]. f_equal.
  destruct world as [|root others]; [reflexivity|].
  cbn [returned_world fmap list_fmap length replicate].
  rewrite vectors_returned. f_equal. clear Hprocs Hworld.
  induction others as [|x others IH]; [reflexivity|].
  cbn [fmap list_fmap length replicate]. rewrite vectors_returned, IH.
  reflexivity.
Qed.

Lemma round_deterministic_witness :
  (fun outs => vectors <$> outs)
  <$> lslim_learn_pu_all Scenario.errs 2 4 [Scenario.process; Scenario.process]
  = (fun vs => replicate 2 (Some (filled (fst <$> vs), filled (snd <$> vs))))
    <$> sequential_round Scenario.errs 2 4 [0; 0; 1; 0].
Proof.
  apply (round_deterministic Scenario.errs 2 4 [0; 0; 1; 0]
           [Scenario.process; Scenario.process]).
  - unfold INT_MAX. lia.
  - unfold INT_MAX. simpl. lia.
  - repeat constructor.
Defined.

(** C9: the round never writes below the end of the memory a process came
    with, so the input vector is still what it was; the two returned
    pointers are distinct new addresses, different from the input pointer
    and unallocated before the call, and they point to live arrays. *)
Theorem input_untouched (lslim_training_error : Z -> Z -> spec_float)
    (num_clusters datasize : Z) (P : list Z) (world : list (ptr * heap))
    (outs : list (ptr * ptr * heap)) :
  0 <= datasize <= INT_MAX ->
  1 <= Z.of_nat (length world) <= INT_MAX ->
  Forall (holds P) world ->
  lslim_learn_pu_all lslim_training_error num_clusters datasize world
  = Some outs ->
  Forall2
    (fun (input : ptr * heap) (out : ptr * ptr * heap) =>
       let p := fst input in let h := snd input in
       let tp := fst (fst out) in let ti := snd (fst out) in
       let h' := snd out in
       block_at p h' = Some (filled P) /\
       (forall a : addr, (a < length h)%nat -> h' !! a = h !! a) /\
       tp <> p /\ ti <> p /\ tp <> ti /\
       block_at tp h = None /\ block_at ti h = None /\
       is_Some (block_at tp h') /\ is_Some (block_at ti h'))
    world outs.
Proof.
  intros Hdata Hprocs Hworld.
  rewrite (round_spec _ _ _ _ P Hdata Hprocs world eq_refl Hworld).
  destruct (sequential_round _ _ _ _) as [vs|]; [|discriminate].
  cbn [mbind option_bind]. intros [= <-].
  set (TP := filled (fst <$> vs)). set (TI := filled (snd <$> vs)).
  assert (Hone : forall r input, holds P input ->
    let out := returned TP TI r input in
    let p := fst input in let h := snd input in
    let tp := fst (fst out) in let ti := snd (fst out) in
    let h' := snd out in
    block_at p h' = Some (filled P) /\
    (forall a : addr, (a < length h)%nat -> h' !! a = h !! a) /\
    tp <> p /\ ti <> p /\ tp <> ti /\
    block_at tp h = None /\ block_at ti h = None /\
    is_Some (block_at tp h') /\ is_Some (block_at ti h')).
  { intros r [q h] Hq. unfold holds in Hq. cbn [fst snd] in Hq.
    apply block_at_inv in Hq as (p & -> & Hp).
    pose proof (lookup_lt_Some _ _ _ Hp) as Hlt.
    pose proof (vectors_returned TP TI r (Some p, h)) as Hvec.
    unfold vectors, returned in Hvec. unfold returned. cbn [fst snd] in *.
    set (extra := if r then _ else _) in *.
    split; [apply block_at_Some, lookup_app_l_Some, Hp|].
    split; [intros a Ha; apply lookup_app_l, Ha|].
    split; [intros [= Heq]; lia|]. split; [intros [= Heq]; lia|].
    split; [intros [= Heq]; lia|].
    split; [unfold block_at; simpl; rewrite lookup_ge_None_2 by lia;
            reflexivity|].
    split; [unfold block_at; simpl; rewrite lookup_ge_None_2 by lia;
            reflexivity|].
    destruct (block_at (Some (length h + 2 + length extra)%nat) _);
      [|discriminate].
    destruct (block_at (Some (length h + 2 + length extra + 1)%nat) _);
      [|discriminate].
    split; eexists; reflexivity. }
  destruct world as [|root others]; [constructor|].
  inversion Hworld as [|? ? Hroot Hothers]; subst.
  cbn [returned_world]. constructor; [apply Hone, Hroot|].
  apply Forall2_fmap_r, Forall_Forall2_diag.
  eapply Forall_impl; [exact Hothers|]. intros input Hin. apply Hone, Hin.
Qed.

Lemma input_untouched_witness :
  Forall2
    (fun (input : ptr * heap) (out : ptr * ptr * heap) =>
       block_at (fst input) (snd out) = Some Scenario.assignment /\
       fst (fst out) <> fst input /\ snd (fst out) <> fst input)
    [Scenario.process; Scenario.process]
    (default []
       (lslim_learn_pu_all Scenario.errs 2 4
          [Scenario.process; Scenario.process])).
Proof.
  eapply Forall2_impl.
  - apply (input_untouched Scenario.errs 2 4 [0; 0; 1; 0]
             [Scenario.process; Scenario.process]).
    + unfold INT_MAX. lia.
    + unfold INT_MAX. simpl. lia.
    + repeat constructor.
    + vm_compute. reflexivity.
  - intros input out (Hp & _ & Htp & Hti & _). auto.
Defined.

(** * Further properties of the code *)

(** ** The per-user optimizer *)

Lemma SFltb_nan_r a : SFltb a S754_nan = false.
Proof. destruct a; reflexivity. Qed.


Lemma SFeqb_nan_r a : SFeqb a S754_nan = false.
Proof. destruct a; reflexivity. Qed.

Lemma lslim_learn_pu_out_of_range
    (lslim_training_error : Z -> Z -> spec_float) (num_clusters u c : Z) :
  ~ 0 <= c < num_clusters ->
  lslim_learn_pu lslim_training_error num_clusters u c = None.
Proof.
  intros Hc. unfold lslim_learn_pu. rewrite fill_error_eq.
  cbn [mbind option_bind]. rewrite array_get_tabulate.
  destruct (Z.leb_spec 0 c), (Z.ltb_spec c num_clusters); try lia; reflexivity.
Qed.

(** X1: on a valid incumbent the call returns a valid cluster id and a
    flag that is 0 or 1; the flag is 1 only when the user stays, and the
    user moves only to a cluster with a strictly smaller error. *)
Theorem optimizer_result_valid (lslim_training_error : Z -> Z -> spec_float)
    (num_clusters u c : Z) :
  0 <= c < num_clusters ->
  exists r indiff,
    lslim_learn_pu lslim_training_error num_clusters u c = Some (r, indiff) /\
    0 <= r < num_clusters /\
    (indiff = 0 \/ indiff = 1) /\
    (indiff = 1 -> r = c) /\
    (r <> c ->
     SFltb (lslim_training_error u r) (lslim_training_error u c) = true).
Proof.
  intros Hc.
  destruct (lslim_learn_pu_spec lslim_training_error num_clusters u c Hc)
    as (r & indiff & Hrun & Hr & _ & Hcase).
  exists r, indiff. split; [exact Hrun|]. split; [exact Hr|].
  destruct Hcase as [(-> & -> & _)|[(-> & -> & _)|(Hne & -> & Hlt & _)]].
  - split; [right; reflexivity|]. split; [reflexivity|]. intros []. reflexivity.
  - split; [left; reflexivity|]. split; [discriminate|]. intros []. reflexivity.
  - split; [left; reflexivity|]. split; [discriminate|]. intros _. exact Hlt.
Qed.

Lemma optimizer_result_valid_witness :
  exists r indiff,
    lslim_learn_pu Scenario.errs 2 3 0 = Some (r, indiff) /\
    0 <= r < 2 /\ (indiff = 0 \/ indiff = 1) /\ (indiff = 1 -> r = 0) /\
    (r <> 0 -> SFltb (Scenario.errs 3 r) (Scenario.errs 3 0) = true).
Proof. apply (optimizer_result_valid Scenario.errs 2 3 0). lia. Defined.

Lemma lslim_learn_pu_again (lslim_training_error : Z -> Z -> spec_float)
    (num_clusters u c r indiff : Z) :
  0 <= c < num_clusters ->
  lslim_learn_pu lslim_training_error num_clusters u c = Some (r, indiff) ->
  exists indiff',
    lslim_learn_pu lslim_training_error num_clusters u r = Some (r, indiff') /\
    (r = c -> indiff' = indiff).
Proof.
  intros Hc Hrun.
  destruct (lslim_learn_pu_spec lslim_training_error num_clusters u c Hc)
    as (r0 & i0 & Hrun0 & Hr & Hlow & _).
  rewrite Hrun in Hrun0. injection Hrun0 as <- <-.
  destruct (lslim_learn_pu_spec lslim_training_error num_clusters u r Hr)
    as (r' & i' & Hrun' & Hr' & _ & Hcase).
  assert (Hsame : r' = r).
  { destruct Hcase as [(-> & _)|[(-> & _)|(_ & _ & Hlt & _)]]; try reflexivity.
    rewrite (Hlow r' Hr') in Hlt. discriminate. }
  subst r'. exists i'. split; [exact Hrun'|].
  intros ->. rewrite Hrun in Hrun'. congruence.
Qed.

(** X2: the returned assignment is a fixed point: calling again with it
    as the incumbent returns it again; if the user had stayed, the flag is
    the same too. *)
Theorem optimizer_fixed_point (lslim_training_error : Z -> Z -> spec_float)
    (num_clusters u c r indiff : Z) :
  0 <= c < num_clusters ->
  lslim_learn_pu lslim_training_error num_clusters u c = Some (r, indiff) ->
  exists indiff',
    lslim_learn_pu lslim_training_error num_clusters u r = Some (r, indiff') /\
    (r = c -> indiff' = indiff).
Proof. apply lslim_learn_pu_again. Qed.

Lemma optimizer_fixed_point_witness :
  exists indiff',
    lslim_learn_pu Scenario.errs 2 1 1 = Some (1, indiff') /\
    (1 = 0 -> indiff' = 0).
Proof.
  apply (optimizer_fixed_point Scenario.errs 2 1 0 1 0); [lia|reflexivity].
Defined.

(** X3: an incumbent whose error is a NaN is never displaced and never
    flagged, whatever the other errors are: every comparison with a NaN
    is false. *)
Theorem nan_incumbent_stays (lslim_training_error : Z -> Z -> spec_float)
    (num_clusters u c : Z) :
  0 <= c < num_clusters ->
  lslim_training_error u c = S754_nan ->
  lslim_learn_pu lslim_training_error num_clusters u c = Some (c, 0).
Proof.
  intros Hc Hnan.
  destruct (lslim_learn_pu_spec lslim_training_error num_clusters u c Hc)
    as (r & indiff & Hrun & _ & _ & Hcase).
  rewrite Hnan in Hcase.
  destruct Hcase as [(-> & -> & d & _ & _ & Heq)
                    |[(-> & -> & _)|(_ & _ & Hlt & _)]].
  - rewrite SFeqb_nan_r in Heq. discriminate.
  - exact Hrun.
  - rewrite SFltb_nan_r in Hlt. discriminate.
Qed.

Lemma nan_incumbent_stays_witness :
  lslim_learn_pu (fun _ k => if k =? 0 then S754_nan else Scenario.d1) 2 0 0
  = Some (0, 0).
Proof.
  apply (nan_incumbent_stays
           (fun _ k => if k =? 0 then S754_nan else Scenario.d1) 2 0 0);
    [lia|reflexivity].
Defined.



(** ** The partition and the displacements *)

(** X5: with more processes than users, rank [id] owns exactly user [id]
    when there is such a user, and nothing otherwise. *)
Theorem more_processes_than_users (datasize num_procs id : Z) :
  0 <= datasize -> datasize < num_procs -> num_procs <= INT_MAX ->
  0 <= id < num_procs ->
  block_range datasize num_procs id
  = if id <? datasize then Range 1 id (id + 1)
    else Range 0 datasize datasize.
Proof.
  intros Hd Hlt Hmax Hid.
  rewrite (block_range_eq datasize num_procs) by (unfold INT_MAX in *; lia).
  rewrite Z.div_small, Z.mod_small by lia.
  destruct (Z.ltb_spec id datasize); f_equal; lia.
Qed.

Lemma more_processes_than_users_witness :
  block_range 2 5 1 = Range 1 1 2 /\ block_range 2 5 3 = Range 0 2 2.
Proof.
  split.
  - apply (more_processes_than_users 2 5 1); unfold INT_MAX; lia.
  - apply (more_processes_than_users 2 5 3); unfold INT_MAX; lia.
Defined.

Lemma take_seqZ (m n : Z) (k : nat) :
  Z.of_nat k <= n -> take k (seqZ m n) = seqZ m (Z.of_nat k).
Proof.
  intros Hk. replace n with (Z.of_nat k + (n - Z.of_nat k)) by lia.
  rewrite seqZ_app by lia. apply take_app_length'.
  rewrite length_seqZ. lia.
Qed.

(** The sizes of the ranks below [k] add up to the first user of rank
    [k]. *)
Lemma offset_block_sizes (datasize num_procs : Z) (k : nat) :
  0 <= datasize <= INT_MAX -> 1 <= num_procs <= INT_MAX ->
  Z.of_nat k < num_procs ->
  offset (block_sizes datasize num_procs) k
  = startu (block_range datasize num_procs (Z.of_nat k)).
Proof.
  intros Hd Hp Hk. unfold offset, block_sizes.
  change (map ?f ?l) with (f <$> l).
  rewrite <- fmap_take, take_seqZ by lia.
  rewrite (steps_length _ _ Hd Hp).
  - rewrite (users_below _ _ Hd Hp) by lia.
    rewrite length_seqZ, (block_range_eq _ _ Hd Hp) by lia. cbn [startu].
    pose proof (Z.mod_pos_bound datasize num_procs ltac:(lia)).
    pose proof (Z.div_pos datasize num_procs ltac:(lia) ltac:(lia)). nia.
  - apply Forall_forall. intros id Hid. apply elem_of_seqZ in Hid. lia.
Qed.

(** X6: when the gathered sizes are those of the balanced partition, the
    displacement the root computes for rank [k] in lines 82-88 is the first
    user index of rank [k]: the result of user [u] is gathered to index
    [u]. *)
Theorem displays_are_starts (datasize num_procs : Z) (f : frame)
    (tp ti : ptr) :
  0 <= datasize <= INT_MAX ->
  1 <= num_procs <= INT_MAX ->
  exists f',
    make_displays num_procs 0
      (root_frame f [Some (filled (block_sizes datasize num_procs));
                     Some (replicate (Z.to_nat num_procs) (Some 0))] tp ti)
    = Some f' /\
    forall k, 0 <= k < num_procs ->
      load (displays f') k (mem f')
      = Some (startu (block_range datasize num_procs k)).
Proof.
  intros Hd Hp.
  assert (Hlen : length (block_sizes datasize num_procs) = Z.to_nat num_procs).
  { unfold block_sizes. rewrite length_map. apply length_seqZ. }
  assert (Hpos : Forall (fun x => 0 <= x) (block_sizes datasize num_procs)).
  { unfold block_sizes. rewrite Forall_map. apply Forall_forall.
    intros w Hw. apply elem_of_seqZ in Hw.
    pose proof (block_range_bounds _ _ Hd Hp w ltac:(lia)) as (? & _).
    assumption. }
  assert (Hsum : sumZ (block_sizes datasize num_procs) = datasize).
  { unfold block_sizes. change (map ?g ?l) with (g <$> l).
    apply steps_sum; assumption. }
  pose proof (make_displays_root f (block_sizes datasize num_procs) tp ti)
    as Hroot.
  rewrite Hlen, Z2Nat.id in Hroot by lia.
  eexists. split; [apply Hroot; [lia|lia|exact Hpos|lia]|].
  intros k Hk. unfold root_frame. cbn [displays mem].
  erewrite (load_new _ (mem f) _ 1 _ k
              (offset (block_sizes datasize num_procs) (Z.to_nat k)));
    [|lia|reflexivity|lia|].
  - rewrite offset_block_sizes, Z2Nat.id by (assumption || lia). reflexivity.
  - unfold filled. rewrite !list_lookup_fmap, lookup_seq_lt by lia.
    reflexivity.
Qed.

Lemma displays_are_starts_witness :
  exists f',
    make_displays 3 0
      (root_frame (Frame [] (Range 3 0 3) None None None None None None)
                  [Some (filled (block_sizes 7 3));
                   Some (replicate 3 (Some 0))] None None)
    = Some f' /\
    forall k, 0 <= k < 3 ->
      load (displays f') k (mem f') = Some (startu (block_range 7 3 k)).
Proof.
  apply (displays_are_starts 7 3
           (Frame [] (Range 3 0 3) None None None None None None) None None);
    unfold INT_MAX; lia.
Defined.

(** X7: the widening of lines 56-57, when [size * num_clusters] fits an
    [int]: the column count becomes the larger of the two, so it never
    shrinks, covers [size * num_clusters] afterwards, and a second
    widening changes nothing. *)
Theorem widen_ncols_max (size num_clusters ncols : Z) :
  is_int (size * num_clusters) ->
  let ncols' := widen_ncols size num_clusters ncols in
  ncols' = Z.max ncols (size * num_clusters) /\
  ncols <= ncols' /\ size * num_clusters <= ncols' /\
  widen_ncols size num_clusters ncols' = ncols'.
Proof.
  intros Hint ncols'. subst ncols'. unfold widen_ncols, int_mul.
  rewrite wrap_small by assumption.
  destruct (Z.gtb_spec (size * num_clusters) ncols) as [Hgt|Hle].
  - destruct (Z.gtb_spec (size * num_clusters) (size * num_clusters)); lia.
  - destruct (Z.gtb_spec (size * num_clusters) ncols); lia.
Qed.

Lemma widen_ncols_max_witness :
  widen_ncols 10 3 25 = Z.max 25 (10 * 3) /\
  25 <= widen_ncols 10 3 25 /\ 10 * 3 <= widen_ncols 10 3 25 /\
  widen_ncols 10 3 (widen_ncols 10 3 25) = widen_ncols 10 3 25.
Proof.
  apply (widen_ncols_max 10 3 25). unfold is_int, INT_MIN, INT_MAX. lia.
Defined.

(** ** The round as a whole *)

Lemma vectors_returned_world (TP TI : block) (world : list (ptr * heap)) :
  vectors <$> returned_world TP TI world
  = replicate (length world) (Some (TP, TI)).
Proof.
  destruct world as [|root others]; [reflexivity|].
  cbn [returned_world fmap list_fmap length replicate].
  rewrite vectors_returned. f_equal.
  induction others as [|x others IH]; [reflexivity|].
  cbn [fmap list_fmap length replicate]. rewrite vectors_returned, IH.
  reflexivity.
Qed.

Lemma first_vector_returned_world (TP TI : block)
    (world : list (ptr * heap)) :
  (fun out => fst <$> vectors out) <$> returned_world TP TI world
  = replicate (length world) (Some TP).
Proof.
  transitivity (fmap (M := option) fst <$> (vectors <$> returned_world TP TI world)).
  - rewrite <- list_fmap_compose. reflexivity.
  - rewrite vectors_returned_world, fmap_replicate. reflexivity.
Qed.

(** Lines 71-113 after a local pass that produced [vss]. *)
Lemma synchronize_passed (datasize : Z) (world : list (ptr * heap))
    (vss : list (list (Z * Z))) :
  0 <= datasize <= INT_MAX ->
  1 <= Z.of_nat (length world) <= INT_MAX ->
  Forall2 (fun i (vs : list (Z * Z)) =>
             length vs
             = length (users_of datasize (Z.of_nat (length world)) i))
          (seqZ 0 (Z.of_nat (length world))) vss ->
  synchronize datasize
    (passed_world datasize (Z.of_nat (length world)) 0 world vss)
  = Some (returned_world (filled (fst <$> concat vss))
                         (filled (snd <$> concat vss)) world).
Proof.
  intros Hdata Hprocs Hlens.
  destruct (passed_slices datasize (Z.of_nat (length world)) Hdata Hprocs
              world vss 0 ltac:(lia) ltac:(lia) Hlens)
    as (Hlenw & HA & HI & Hne & Hsteps & Hret).
  destruct world as [|x world']; [simpl in Hprocs; lia|].
  destruct (passed_world datasize _ 0 (x :: world') vss)
    as [|root others] eqn:Hw; [discriminate|].
  erewrite (synchronize_spec datasize root others); try eassumption.
  - rewrite !concat_filled. f_equal. cbn [synchronized_world returned_world].
    pose proof (Hret (filled (fst <$> concat vss))
                     (filled (snd <$> concat vss)) true) as Hroot.
    pose proof (Hret (filled (fst <$> concat vss))
                     (filled (snd <$> concat vss)) false) as Hothers.
    cbn [fmap list_fmap] in Hroot, Hothers.
    f_equal; congruence.
  - rewrite Hlenw. lia.
  - rewrite Hsteps. apply steps_sum; assumption.
Qed.

Lemma concat_replicate_nil {A} (n : nat) :
  concat (replicate n (@nil A)) = [].
Proof. induction n as [|n IH]; [reflexivity|exact IH]. Qed.

(** Lines 44-69 when there is no user at all: nothing is read. *)
Lemma spmd_local_pass_no_users
    (lslim_training_error : Z -> Z -> spec_float)
    (num_clusters num_procs : Z) (world : list (ptr * heap)) (id : Z) :
  1 <= num_procs <= INT_MAX ->
  0 <= id -> id + Z.of_nat (length world) <= num_procs ->
  spmd_from id (local_pass lslim_training_error num_clusters 0 num_procs)
            world
  = Some (passed_world 0 num_procs id world (replicate (length world) [])).
Proof.
  intros Hp. revert id. induction world as [|[q h] world IH]; intros id Hid Hlen;
    [reflexivity|].
  cbn [length] in Hlen. cbn [spmd_from length replicate passed_world].
  rewrite IH by lia. unfold local_pass.
  rewrite (block_range_eq 0 num_procs) by (unfold INT_MAX in *; lia).
  rewrite Z.div_0_l, Z.mod_0_l by lia. cbn [step startu endu].
  replace (0 + (if id <? 0 then 1 else 0)) with 0
    by (destruct (Z.ltb_spec id 0); lia).
  replace (0 * id + Z.min id 0) with 0 by lia.
  replace (0 * (id + 1) + Z.min (id + 1) 0) with 0 by lia.
  rewrite gk_imalloc_Some by lia. cbn [mbind option_bind].
  rewrite gk_imalloc_Some by lia. cbn [mbind option_bind].
  rewrite for_range_empty by lia. cbn [mbind option_bind].
  rewrite length_app, <- app_assoc. reflexivity.
Qed.

(** X8: with no users the round succeeds on any number of processes and
    returns two empty vectors on each, whatever the [participation]
    pointers are (they are never dereferenced) and whatever the number of
    clusters is. *)
Theorem round_without_users (lslim_training_error : Z -> Z -> spec_float)
    (num_clusters : Z) (world : list (ptr * heap)) :
  1 <= Z.of_nat (length world) <= INT_MAX ->
  (fun outs : list (ptr * ptr * heap) => vectors <$> outs)
  <$> lslim_learn_pu_all lslim_training_error num_clusters 0 world
  = Some (replicate (length world) (Some ([], []))).
Proof.
  intros Hprocs. unfold lslim_learn_pu_all, spmd. cbv zeta.
  rewrite spmd_local_pass_no_users by lia. cbn [mbind option_bind].
  rewrite synchronize_passed.
  - cbn [fmap option_fmap option_map]. rewrite vectors_returned_world.
    rewrite concat_replicate_nil. reflexivity.
  - unfold INT_MAX. lia.
  - exact Hprocs.
  - assert (Hall : forall (ids : list Z),
      Forall (fun i => 0 <= i < Z.of_nat (length world)) ids ->
      Forall2 (fun i (vs : list (Z * Z)) =>
                 length vs = length (users_of 0 (Z.of_nat (length world)) i))
              ids (replicate (length ids) [])).
    { induction 1 as [|i ids Hi _ IH]; constructor; [|exact IH].
      unfold users_of.
      rewrite (block_range_eq 0 (Z.of_nat (length world)))
        by (unfold INT_MAX in *; lia).
      rewrite Z.div_0_l, Z.mod_0_l by lia. cbn [step startu].
      rewrite seqZ_nil; [reflexivity|].
      destruct (Z.ltb_spec i 0); lia. }
    specialize (Hall (seqZ 0 (Z.of_nat (length world)))).
    rewrite length_seqZ, Nat2Z.id in Hall. apply Hall.
    apply Forall_forall. intros i Hi. apply elem_of_seqZ in Hi. lia.
Qed.

Lemma round_without_users_witness :
  (fun outs : list (ptr * ptr * heap) => vectors <$> outs)
  <$> lslim_learn_pu_all Scenario.errs 0 0 [(None, []); (None, [])]
  = Some (replicate 2 (Some ([], []))).
Proof.
  apply (round_without_users Scenario.errs 0 [(None, []); (None, [])]).
  unfold INT_MAX. simpl. lia.
Defined.

(** X9: with at least one user, a [NULL] [participation] at rank 0 makes
    the round fail: rank 0 always owns user 0 and reads
    [participation[0]]. *)
Theorem null_participation_fails
    (lslim_training_error : Z -> Z -> spec_float)
    (num_clusters datasize : Z) (h : heap) (others : list (ptr * heap)) :
  1 <= datasize <= INT_MAX ->
  Z.of_nat (length ((None, h) :: others)) <= INT_MAX ->
  lslim_learn_pu_all lslim_training_error num_clusters datasize
    ((None, h) :: others) = None.
Proof.
  intros Hd Hp. unfold lslim_learn_pu_all, spmd. cbv zeta.
  set (np := Z.of_nat (length ((None, h) :: others))) in *.
  assert (Hnp : 1 <= np <= INT_MAX) by (subst np; cbn [length] in *; lia).
  cbn [spmd_from].
  assert (Hlocal : local_pass lslim_training_error num_clusters datasize np 0
                              (None, h) = None).
  { unfold local_pass.
    rewrite (block_range_eq datasize np) by lia. cbn [step startu endu].
    pose proof (Z.div_mod datasize np ltac:(lia)).
    pose proof (Z.mod_pos_bound datasize np ltac:(lia)).
    pose proof (Z.div_pos datasize np ltac:(lia) ltac:(lia)).
    set (n := datasize / np + (if 0 <? datasize mod np then 1 else 0)).
    assert (Hn : 1 <= n).
    { subst n. destruct (Z.ltb_spec 0 (datasize mod np)); nia. }
    rewrite gk_imalloc_Some by lia. cbn [mbind option_bind].
    rewrite gk_imalloc_Some by lia. cbn [mbind option_bind].
    unfold for_range.
    replace (datasize / np * (0 + 1) + Z.min (0 + 1) (datasize mod np)
             - (datasize / np * 0 + Z.min 0 (datasize mod np)))
      with (Z.succ (n - 1))
      by (subst n; destruct (Z.ltb_spec 0 (datasize mod np)); lia).
    rewrite Z2Nat.inj_succ by lia. reflexivity. }
  rewrite Hlocal. reflexivity.
Qed.

Lemma null_participation_fails_witness :
  lslim_learn_pu_all Scenario.errs 2 4 [(None, []); Scenario.process] = None.
Proof.
  apply (null_participation_fails Scenario.errs 2 4 [] [Scenario.process]);
    unfold INT_MAX; simpl; lia.
Defined.

Section RoundProperties.

Variable lslim_training_error : Z -> Z -> spec_float.
Variable num_clusters : Z.

Local Abbreviation learn := (lslim_learn_pu lslim_training_error num_clusters).
Local Abbreviation one := (learn_one lslim_training_error num_clusters).
Local Abbreviation sequential :=
  (sequential_round lslim_training_error num_clusters).

Lemma learn_one_inv (P : list Z) (u : Z) (v : Z * Z) :
  one P u = Some v ->
  exists c, array_get P u = Some c /\ 0 <= c < num_clusters /\
            learn u c = Some v.
Proof.
  unfold learn_one. destruct (array_get P u) as [c|]; [|discriminate].
  cbn [mbind option_bind]. intros Hrun. exists c. split; [reflexivity|].
  split; [|exact Hrun].
  destruct (decide (0 <= c < num_clusters)) as [Hc|Hc]; [exact Hc|].
  rewrite lslim_learn_pu_out_of_range in Hrun by exact Hc. discriminate.
Qed.

(** The entries of a successful sequential run, user by user. *)
Lemma sequential_lookup (datasize : Z) (P : list Z) (vs : list (Z * Z)) :
  sequential datasize P = Some vs ->
  length vs = Z.to_nat datasize /\
  forall u, 0 <= u < datasize ->
    exists v, vs !! Z.to_nat u = Some v /\ one P u = Some v.
Proof.
  intros Hrun. unfold sequential_round in Hrun.
  pose proof (length_mapM _ _ _ Hrun) as Hlen. rewrite length_seqZ in Hlen.
  split; [lia|]. intros u Hu. apply mapM_Some_1 in Hrun.
  destruct (Forall2_lookup_l _ _ _ (Z.to_nat u) u Hrun) as (v & Hv & Hone).
  - rewrite lookup_seqZ_lt by lia. f_equal. lia.
  - exists v. split; assumption.
Qed.

Lemma sequential_entries (datasize : Z) (P : list Z) (vs : list (Z * Z)) :
  sequential datasize P = Some vs ->
  Forall (fun v => exists u, 0 <= u < datasize /\ one P u = Some v) vs.
Proof.
  intros Hrun. apply mapM_Some_1 in Hrun. apply Forall_lookup.
  intros i v Hv.
  destruct (Forall2_lookup_r _ _ _ i v Hrun Hv) as (u & Hu & Hone).
  apply lookup_seqZ in Hu as [-> Hi]. exists (Z.of_nat i).
  split; [lia|exact Hone].
Qed.


(** X11: if every user has a current assignment that is a cluster id,
    the round succeeds and every process gets back two fully written
    vectors with one entry per user: a new assignment that is again a
    cluster id, and a flag that is 0 or 1.  The output can be fed to the
    next round. *)
Theorem round_keeps_valid (datasize : Z) (P : list Z)
    (world : list (ptr * heap)) :
  0 <= datasize <= INT_MAX ->
  1 <= Z.of_nat (length world) <= INT_MAX ->
  Forall (holds P) world ->
  datasize <= Z.of_nat (length P) ->
  Forall (fun c => 0 <= c < num_clusters) P ->
  exists A I : list Z,
    (fun outs : list (ptr * ptr * heap) => vectors <$> outs)
    <$> lslim_learn_pu_all lslim_training_error num_clusters datasize world
    = Some (replicate (length world) (Some (filled A, filled I))) /\
    Z.of_nat (length A) = datasize /\ Z.of_nat (length I) = datasize /\
    Forall (fun r => 0 <= r < num_clusters) A /\
    Forall (fun i => i = 0 \/ i = 1) I.
Proof.
  intros Hdata Hprocs Hworld Hlen Hvalid.
  rewrite (round_spec _ _ _ _ P Hdata Hprocs world eq_refl Hworld).
  assert (Hsome : is_Some (sequential datasize P)).
  { apply mapM_is_Some_2, Forall_forall. intros u Hu.
    apply elem_of_seqZ in Hu. unfold compose, learn_one.
    destruct (lookup_lt_is_Some_2 P (Z.to_nat u) ltac:(lia)) as [c Hc].
    rewrite array_get_lookup, Hc by lia. cbn [mbind option_bind].
    pose proof (proj1 (Forall_lookup _ _) Hvalid _ _ Hc) as Hrange.
    destruct (lslim_learn_pu_spec lslim_training_error num_clusters u c
                Hrange) as (r & i & -> & _).
    eexists; reflexivity. }
  destruct Hsome as [vs Hrun]. rewrite Hrun. cbn [mbind option_bind].
  exists (fst <$> vs), (snd <$> vs).
  cbn [fmap option_fmap option_map]. rewrite vectors_returned_world.
  split; [reflexivity|].
  destruct (sequential_lookup _ _ _ Hrun) as (Hlenvs & _).
  rewrite !length_fmap. split; [lia|]. split; [lia|].
  pose proof (sequential_entries _ _ _ Hrun) as Hentries.
  split; apply Forall_fmap; (eapply Forall_impl; [exact Hentries|]);
    intros v (u & Hu & Hone);
    destruct (learn_one_inv _ _ _ Hone) as (c & _ & Hc & Hlearn);
    destruct (lslim_learn_pu_spec lslim_training_error num_clusters u c Hc)
      as (r & i & Hspec & Hr & _ & Hcase);
    rewrite Hlearn in Hspec; injection Hspec as ->; cbn [fst snd compose].
  - exact Hr.
  - destruct Hcase as [(_ & -> & _)|[(_ & -> & _)|(_ & -> & _)]]; auto.
Qed.

(** A second sequential run over the assignments of a first one leaves
    every assignment where it is. *)
Lemma sequential_fixed_point (datasize : Z) (P : list Z)
    (vs : list (Z * Z)) :
  0 <= datasize ->
  sequential datasize P = Some vs ->
  exists vs2,
    sequential datasize (fst <$> vs) = Some vs2 /\ fst <$> vs2 = fst <$> vs.
Proof.
  intros Hdata Hrun.
  destruct (sequential_lookup _ _ _ Hrun) as (Hlen & Hall).
  assert (Hstep : forall u, 0 <= u < datasize ->
    exists v i', vs !! Z.to_nat u = Some v /\
                 one (fst <$> vs) u = Some (fst v, i')).
  { intros u Hu. destruct (Hall u Hu) as (v & Hv & Hone).
    destruct (learn_one_inv _ _ _ Hone) as (c & _ & Hc & Hlearn).
    destruct v as [r i].
    destruct (lslim_learn_pu_again _ _ _ _ _ _ Hc Hlearn) as (i' & Hagain & _).
    exists (r, i), i'. split; [exact Hv|]. unfold learn_one.
    rewrite array_get_lookup, list_lookup_fmap, Hv by lia. exact Hagain. }
  assert (Hsome : is_Some (sequential datasize (fst <$> vs))).
  { apply mapM_is_Some_2, Forall_forall. intros u Hu.
    apply elem_of_seqZ in Hu.
    destruct (Hstep u ltac:(lia)) as (v & i' & _ & Hone').
    unfold compose. rewrite Hone'. eexists; reflexivity. }
  destruct Hsome as [vs2 Hrun2]. exists vs2. split; [exact Hrun2|].
  destruct (sequential_lookup _ _ _ Hrun2) as (Hlen2 & Hall2).
  apply list_eq. intros k. rewrite !list_lookup_fmap.
  destruct (decide (Z.of_nat k < datasize)) as [Hk|Hk].
  - destruct (Hstep (Z.of_nat k) ltac:(lia)) as (v & i' & Hv & Hone').
    destruct (Hall2 (Z.of_nat k) ltac:(lia)) as (v2 & Hv2 & Hone2).
    rewrite Nat2Z.id in Hv, Hv2. rewrite Hv, Hv2.
    rewrite Hone' in Hone2. injection Hone2 as <-. reflexivity.
  - rewrite !lookup_ge_None_2 by lia. reflexivity.
Qed.

Lemma holds_next_input (A : list Z) (TI : block) (r : bool)
    (input : ptr * heap) :
  holds A (next_input (returned (filled A) TI r input)).
Proof.
  pose proof (vectors_returned (filled A) TI r input) as Hvec.
  unfold holds, next_input. unfold vectors in Hvec.
  destruct (returned (filled A) TI r input) as [[tp ti] h'].
  cbn [fst snd]. destruct (block_at tp h') as [b|]; [|discriminate].
  cbn [mbind option_bind] in Hvec.
  destruct (block_at ti h'); [|discriminate].
  cbn [mbind option_bind] in Hvec. congruence.
Qed.

(** X12: feeding the returned vector back as the input of a second round
    changes no assignment: every process gets back the assignment vector
    it passed in. *)
Theorem round_twice (datasize : Z) (P : list Z) (world : list (ptr * heap))
    (outs : list (ptr * ptr * heap)) :
  0 <= datasize <= INT_MAX ->
  1 <= Z.of_nat (length world) <= INT_MAX ->
  Forall (holds P) world ->
  lslim_learn_pu_all lslim_training_error num_clusters datasize world
  = Some outs ->
  (fun outs2 : list (ptr * ptr * heap) =>
     (fun out => fst <$> vectors out) <$> outs2)
  <$> lslim_learn_pu_all lslim_training_error num_clusters datasize
        (next_input <$> outs)
  = Some ((fun out => fst <$> vectors out) <$> outs).
Proof.
  intros Hdata Hprocs Hworld.
  rewrite (round_spec _ _ _ _ P Hdata Hprocs world eq_refl Hworld).
  destruct (sequential datasize P) as [vs|] eqn:Hrun; [|discriminate].
  cbn [mbind option_bind]. intros [= <-].
  destruct (sequential_fixed_point datasize P vs (proj1 Hdata) Hrun)
    as (vs2 & Hrun2 & Hsame).
  set (TP := filled (fst <$> vs)). set (TI := filled (snd <$> vs)).
  assert (Hlen : length (next_input <$> returned_world TP TI world)
                 = length world).
  { rewrite length_fmap. destruct world; [reflexivity|].
    cbn [returned_world length]. rewrite length_fmap. reflexivity. }
  assert (Hworld2 : Forall (holds (fst <$> vs))
                           (next_input <$> returned_world TP TI world)).
  { apply Forall_fmap. destruct world as [|x world]; [constructor|].
    cbn [returned_world]. constructor; [apply holds_next_input|].
    apply Forall_fmap, Forall_true. intros input. apply holds_next_input. }
  assert (Hprocs2 :
    1 <= Z.of_nat (length (next_input <$> returned_world TP TI world))
    <= INT_MAX) by (rewrite Hlen; exact Hprocs).
  rewrite (round_spec _ _ _ _ (fst <$> vs) Hdata Hprocs2 _ eq_refl Hworld2).
  rewrite Hrun2. cbn [mbind option_bind fmap option_fmap option_map].
  f_equal. rewrite Hsame. fold TP.
  rewrite !first_vector_returned_world, Hlen. reflexivity.
Qed.


Lemma filled_inj (A B : list Z) : filled A = filled B -> A = B.
Proof.
  unfold filled. revert B. induction A as [|a A IH]; intros [|b B] H;
    try discriminate; [reflexivity|].
  cbn [fmap list_fmap] in H. injection H as -> H. f_equal. apply IH, H.
Qed.

(** X14: a round never makes a user worse off.  For every user the error
    of the old cluster is not strictly below that of the new one; a user
    that moved went to a cluster with a strictly smaller error and is not
    flagged; a flagged user has not moved. *)
Theorem round_never_worsens (datasize : Z) (P A I : list Z)
    (world : list (ptr * heap)) (u c r i : Z) :
  0 <= datasize <= INT_MAX ->
  1 <= Z.of_nat (length world) <= INT_MAX ->
  Forall (holds P) world ->
  (fun outs : list (ptr * ptr * heap) => vectors <$> outs)
  <$> lslim_learn_pu_all lslim_training_error num_clusters datasize world
  = Some (replicate (length world) (Some (filled A, filled I))) ->
  0 <= u < datasize ->
  array_get P u = Some c -> array_get A u = Some r ->
  array_get I u = Some i ->
  SFltb (lslim_training_error u c) (lslim_training_error u r) = false /\
  (r <> c ->
   SFltb (lslim_training_error u r) (lslim_training_error u c) = true /\
   i = 0) /\
  (i = 1 -> r = c).
Proof.
  intros Hdata Hprocs Hworld.
  rewrite (round_spec _ _ _ _ P Hdata Hprocs world eq_refl Hworld).
  destruct (sequential datasize P) as [vs|] eqn:Hrun; [|discriminate].
  cbn [mbind option_bind fmap option_fmap option_map].
  rewrite vectors_returned_world. intros [= Hvec] Hu HP HA HI.
  destruct (length world) as [|n]; [simpl in Hprocs; lia|].
  cbn [replicate] in Hvec. injection Hvec as HAeq HIeq _.
  apply filled_inj in HAeq. apply filled_inj in HIeq. subst A I.
  destruct (sequential_lookup _ _ _ Hrun) as (_ & Hall).
  destruct (Hall u Hu) as ([r0 i0] & Hv & Hone).
  rewrite array_get_lookup, list_lookup_fmap, Hv in HA, HI by lia.
  cbn [fmap option_fmap option_map fst snd] in HA, HI.
  injection HA as ->. injection HI as ->.
  destruct (learn_one_inv _ _ _ Hone) as (c0 & Hc0 & Hc & Hlearn).
  rewrite HP in Hc0. injection Hc0 as <-.
  destruct (lslim_learn_pu_spec lslim_training_error num_clusters u c Hc)
    as (r' & i' & Hspec & _ & Hlow & Hcase).
  rewrite Hlearn in Hspec. injection Hspec as <- <-.
  split; [apply Hlow, Hc|].
  destruct Hcase as [(-> & -> & _)|[(-> & -> & _)|(Hne & -> & Hlt & _)]].
  - split; [intros []; reflexivity|reflexivity].
  - split; [intros []; reflexivity|discriminate].
  - split; [intros _; split; [exact Hlt|reflexivity]|discriminate].
Qed.

End RoundProperties.


Lemma round_keeps_valid_witness :
  exists A I : list Z,
    (fun outs : list (ptr * ptr * heap) => vectors <$> outs)
    <$> lslim_learn_pu_all Scenario.errs 2 4
          [Scenario.process; Scenario.process; Scenario.process]
    = Some (replicate 3 (Some (filled A, filled I))) /\
    Z.of_nat (length A) = 4 /\ Z.of_nat (length I) = 4 /\
    Forall (fun r => 0 <= r < 2) A /\ Forall (fun i => i = 0 \/ i = 1) I.
Proof.
  apply (round_keeps_valid Scenario.errs 2 4 [0; 0; 1; 0]
           [Scenario.process; Scenario.process; Scenario.process]).
  - unfold INT_MAX. lia.
  - unfold INT_MAX. simpl. lia.
  - repeat constructor.
  - simpl. lia.
  - repeat constructor; lia.
Defined.

Lemma round_twice_witness :
  (fun outs2 : list (ptr * ptr * heap) =>
     (fun out => fst <$> vectors out) <$> outs2)
  <$> lslim_learn_pu_all Scenario.errs 2 4
        (next_input <$>
           default []
             (lslim_learn_pu_all Scenario.errs 2 4
                [Scenario.process; Scenario.process]))
  = Some ((fun out => fst <$> vectors out) <$>
            default []
              (lslim_learn_pu_all Scenario.errs 2 4
                 [Scenario.process; Scenario.process])).
Proof.
  apply (round_twice Scenario.errs 2 4 [0; 0; 1; 0]
           [Scenario.process; Scenario.process]).
  - unfold INT_MAX. lia.
  - unfold INT_MAX. simpl. lia.
  - repeat constructor.
  - vm_compute. reflexivity.
Defined.


Lemma round_never_worsens_witness :
  SFltb (Scenario.errs 1 0) (Scenario.errs 1 1) = false /\
  (1 <> 0 -> SFltb (Scenario.errs 1 1) (Scenario.errs 1 0) = true /\ 0 = 0) /\
  (0 = 1 -> 1 = 0).
Proof.
  apply (round_never_worsens Scenario.errs 2 4 [0; 0; 1; 0] [0; 1; 1; 0]
           [0; 0; 1; 1] [Scenario.process; Scenario.process] 1 0 1 0).
  - unfold INT_MAX. lia.
  - unfold INT_MAX. simpl. lia.
  - repeat constructor.
  - vm_compute. reflexivity.
  - lia.
  - reflexivity.
  - reflexivity.
  - reflexivity.
Defined.

(** X15: the block lengths of the ranks add up to the number of users:
    the sizes gathered at the root cover the whole output vector, no more
    and no less. *)
Theorem block_sizes_sum (datasize num_procs : Z) :
  0 <= datasize <= INT_MAX ->
  1 <= num_procs <= INT_MAX ->
  sumZ (block_sizes datasize num_procs) = datasize.
Proof.
  intros Hd Hp. unfold block_sizes. change (map ?g ?l) with (g <$> l).
  apply steps_sum; assumption.
Qed.

Lemma block_sizes_sum_witness : sumZ (block_sizes 7 3) = 7.
Proof. apply (block_sizes_sum 7 3); unfold INT_MAX; lia. Defined.
